(** * CsvParser (source-s3): line scanner, chunk splitter, record streamer
      and schema derivation of [csv_parser.py], embedded and verified.

    Files are byte strings read from a position; generators are the list of
    what they yield and the way they end; the [while] loops of the scanner
    and of the splitter take fuel, and are shown never to use it up. The
    temporary file of the splitter is a buffered writer: the bytes that
    have reached the file, which [os.stat] sees, and the bytes that wait in
    the write buffer. Calls to [self.logger] do not change any result and
    are left out. *)

From Stdlib Require Import ZArith Lia.
From Stdlib.Strings Require Import Byte Ascii.
From stdpp Require Import base option list strings gmap.

Local Open Scope Z_scope.

#[local] Arguments Z.to_nat : simpl never.

(** ** Byte strings and binary files *)

(** Python [bytes] values. *)
Abbreviation bytes := (list byte).

(** [len(b)], a Python int. *)
Definition len (b : bytes) : Z := Z.of_nat (length b).

(** The record terminator [b"\n"]. *)
Definition NL : byte := x0a.

#[global] Instance byte_eq_decision : EqDecision byte := Byte.byte_eq_dec.

(** A [BinaryIO] opened for reading is the byte string still ahead of its
    position; [file.read(n)] returns the next [n] bytes, fewer only at the
    end of the stream, and advances; a negative [n] reads all. *)
Definition read (n : Z) (file : bytes) : bytes * bytes :=
  if n <? 0 then (file, [])
  else (take (Z.to_nat n) file, drop (Z.to_nat n) file).

(** [b.find(sub)] for a one-byte [sub]: the first index, or [-1]. *)
Fixpoint find_from (i : Z) (sub : byte) (b : bytes) : Z :=
  match b with
  | [] => -1
  | x :: b' => if bool_decide (x = sub) then i else find_from (i + 1) sub b'
  end.

Definition bytes_find (sub : byte) (b : bytes) : Z := find_from 0 sub b.

(** [file.readline()]: up to and including the first [\n], or all that
    is left. *)
Definition readline (file : bytes) : bytes * bytes :=
  let found := bytes_find NL file in
  if -1 <? found then read (found + 1) file else read (-1) file.

(** Slices [b[:i]] and [b[i:]] for [0 <= i]. *)
Definition slice_to (i : Z) (b : bytes) : bytes := take (Z.to_nat i) b.
Definition slice_from (i : Z) (b : bytes) : bytes := drop (Z.to_nat i) b.

(** ** Exceptions and results *)

(** A raised Python exception: its class name, its message, and whether
    the class derives from [Exception] (what [except Exception] catches). *)
Record exc := Exc { exc_type : string; exc_msg : string; exc_is_Exception : bool }.

#[global] Instance exc_eq_decision : EqDecision exc.
Proof. solve_decision. Defined.

Inductive outcome (A : Type) : Type :=
| Returns (a : A)
| Raises (e : exc).
Arguments Returns {A} a.
Arguments Raises {A} e.

(** [MAX_CHUNK_SIZE = 50.0 * 1024 ** 2]; the float is integral, and Python
    compares ints with floats exactly. *)
Definition MAX_CHUNK_SIZE : Z := 50 * 1024 ^ 2.

Definition line_too_long : exc :=
  Exc "Exception" "incorrect CSV file because same line is more than 50Mb" true.

(** ** [CsvParser.__find_line_end] *)

(** The [while True] loop. Each pass either returns or consumes at least
    one byte, so [fuel] above the file length is never used up; [None]
    means the fuel ran out. The result carries the file position after. *)
Fixpoint find_line_end_loop (fuel : nat) (left_part file : bytes)
  : option (outcome (bytes * bytes) * bytes) :=
  match fuel with
  | O => None
  | S fuel' =>
    let '(chunk, file) := read 1024 file in
    match chunk with
    | [] => Some (Returns ([], []), file)
    | _ :: _ =>
      let left_part := left_part ++ chunk in
      if MAX_CHUNK_SIZE <? len left_part then Some (Raises line_too_long, file)
      else
        let found := bytes_find NL left_part in
        if -1 <? found then
          let right_part := slice_from found left_part in
          Some (Returns (slice_to found left_part, right_part), file)
        else find_line_end_loop fuel' left_part file
    end
  end.

Definition find_line_end (file : bytes) : option (outcome (bytes * bytes) * bytes) :=
  find_line_end_loop (S (length file)) [] file.

(** How a generator ended. *)
Inductive gen_end : Type :=
| Finished
| Raised (e : exc).

(** ** The temporary file *)

(** The size of the write buffer that [open(temp_file, "wb")] gives the
    file: the block size of the device, or [io.DEFAULT_BUFFER_SIZE]; 4096
    or 8192 bytes on most systems. *)
Class WriteBuffer : Type := buffer_size : Z.

(** A binary file open for writing: the bytes that have reached the file,
    and the bytes still held in the write buffer. *)
Record writer : Type := Writer { on_disk : bytes; pending : bytes }.

(** [open(temp_file, "wb")]: the file is created, or cut to nothing. *)
Definition open_wb : writer := Writer [] [].

Section TempFile.
Context {wb : WriteBuffer}.

(** [tf.write(b)], as [io.BufferedWriter] does it: [b] joins the buffer
    when it fits in the room left there. Otherwise the buffer is written
    out first; then [b] goes to the file at once when it is larger than
    the whole buffer, and into the emptied buffer when it is not. *)
Definition tf_write (tf : writer) (b : bytes) : writer :=
  if len b <=? buffer_size - len (pending tf)
  then Writer (on_disk tf) (pending tf ++ b)
  else if buffer_size <? len b
       then Writer (on_disk tf ++ pending tf ++ b) []
       else Writer (on_disk tf ++ pending tf) b.

(** [os.stat(temp_file).st_size] while [tf] is open: the bytes held in
    the buffer do not count. *)
Definition st_size (tf : writer) : Z := len (on_disk tf).

(** [tf.close()] writes the buffer out: the content of the file after. *)
Definition tf_close (tf : writer) : bytes := on_disk tf ++ pending tf.

(** ** [CsvParser.__create_chunk] *)

(** The inner [while os.stat(temp_file).st_size < MAX_CHUNK_SIZE] loop.
    [chunk] is the Python variable of that name ([None] before the first
    read). *)
Fixpoint fill_loop (fuel : nat) (tf : writer) (chunk : option bytes) (file : bytes)
  : option (writer * option bytes * bytes) :=
  match fuel with
  | O => None
  | S fuel' =>
    if st_size tf <? MAX_CHUNK_SIZE then
      let '(c, file) := read (1024 * 1024) file in
      match c with
      | [] => Some (tf, Some [], file)
      | _ :: _ => fill_loop fuel' (tf_write tf c) (Some c) file
      end
    else Some (tf, chunk, file)
  end.

(** Truth value of [chunk]: [None] and the empty byte string are false. *)
Definition truthy (chunk : option bytes) : bool :=
  match chunk with Some (_ :: _) => true | _ => false end.

(** The outer [while True] loop: the contents of the chunks yielded, in
    order, and how the generator ended. A chunk is what the temporary file
    holds once [tf.close()] has run. An exception from the scanner leaves
    the [try] through [finally: tf.close()] before the [yield]. *)
Fixpoint create_chunk_loop (fuel : nat) (chunk : option bytes)
    (headers tail_part file : bytes) : option (list bytes * gen_end) :=
  match fuel with
  | O => None
  | S fuel' =>
    let tf := tf_write (tf_write open_wb headers) tail_part in
    match fill_loop (S (length file)) tf chunk file with
    | None => None
    | Some (tf, chunk, file) =>
      if truthy chunk then
        match find_line_end file with
        | None => None
        | Some (Raises e, _) => Some ([], Raised e)
        | Some (Returns (right_part, tail_part), file) =>
          let tf := tf_write tf right_part in
          match create_chunk_loop fuel' chunk headers tail_part file with
          | None => None
          | Some (chunks, e) => Some (tf_close tf :: chunks, e)
          end
        end
      else Some ([tf_close tf], Finished)
    end
  end.

Definition create_chunk (file : bytes) : option (list bytes * gen_end) :=
  match find_line_end file with
  | None => None
  | Some (Raises e, _) => Some ([], Raised e)
  | Some (Returns (headers, tail_part), file') =>
    create_chunk_loop (length file + 2) None headers tail_part file'
  end.
End TempFile.

(** The body of a chunk: what follows the header bytes written first. *)
Definition chunk_body (headers chunk : bytes) : bytes :=
  drop (length headers) chunk.

(** Length of the run of bytes ahead of the position that holds no
    terminator: up to the first [\n], or to the end of the stream. *)
Definition unterminated_run (file : bytes) : Z :=
  let found := bytes_find NL file in
  if -1 <? found then found else len file.

(** [__find_line_end] raised its only error. *)
Definition scan_raises (r : option (outcome (bytes * bytes) * bytes)) : Prop :=
  ∃ file', r = Some (Raises line_too_long, file').

(** What a scan can return: the error, the exhaustion pair, or a split of
    everything accumulated at the first terminator. *)
Definition scan_post (left_part file : bytes)
    (r : outcome (bytes * bytes) * bytes) : Prop :=
  match r with
  | (Raises e, _) => e = line_too_long
  | (Returns (l, r), file') =>
    (l = [] ∧ r = [] ∧ file' = [] ∧ NL ∉ file)
    ∨ (l ++ r ++ file' = left_part ++ file ∧ (NL ∉ l) ∧ ∃ r', r = NL :: r')
  end.

(** The scanner's error condition read literally: it is raised exactly when the
    run of bytes without a terminator is longer than 50 MiB. *)
Definition raises_iff_run_exceeds (file : bytes) : Prop :=
  scan_raises (find_line_end file) <-> MAX_CHUNK_SIZE < unterminated_run file.

(** Fifty MiB of [a] followed by one terminator. *)
Definition run_of_exactly_50MiB : bytes :=
  replicate (Z.to_nat MAX_CHUNK_SIZE) x61 ++ [NL].

(** Putting the chunks back together: the first chunk whole, then every
    later chunk without the header bytes written at its start. *)
Definition reassemble (headers : bytes) (chunks : list bytes) : bytes :=
  match chunks with
  | [] => []
  | c :: cs => c ++ concat (map (chunk_body headers) cs)
  end.

(** [n] bytes [a]. *)
Definition rep (n : Z) : bytes := replicate (Z.to_nat n) x61.

(** The line [h], its terminator, then 50 MiB + 1 KiB of [a] with no
    terminator at the end of the stream. *)
Definition unterminated_tail_file : bytes :=
  [x68; NL] ++ rep (MAX_CHUNK_SIZE + 1024).

(** A line of 50 MiB - 1 bytes, its terminator, and five bytes more. *)
Definition long_header_file : bytes := rep (MAX_CHUNK_SIZE - 1) ++ NL :: rep 5.

(** Every record, terminator included, is at most 1 KiB long: each
    window of 1 KiB inside the stream holds a terminator. *)
Definition short_records (file : bytes) : Prop :=
  ∀ i : Z, 0 <= i -> i + 1024 <= len file ->
    NL ∈ take (Z.to_nat 1024) (drop (Z.to_nat i) file).

(** The first line of the stream with its terminator. *)
Definition header_line (file : bytes) : bytes :=
  slice_to (bytes_find NL file + 1) file.

(** The scenario of a 120 MiB input read literally: three chunks, each
    starting with the header line, each of at most 50 MiB. *)
Definition three_bounded_chunks {wb : WriteBuffer} (file : bytes) : Prop :=
  ∃ c1 c2 c3 : bytes,
    create_chunk file = Some ([c1; c2; c3], Finished)
    ∧ Forall (λ c, header_line file `prefix_of` c ∧ len c <= MAX_CHUNK_SIZE)
             [c1; c2; c3].

(** A 120 MiB stream: the header [h], then only empty lines. *)
Definition blank_lines_120MiB : bytes :=
  x68 :: replicate (Z.to_nat (120 * 1024 ^ 2 - 1)) NL.

(** ** Format configuration and engine options *)

(** Values found in the option dictionaries handed to the CSV engine:
    what the parser puts there, and what [json.loads] can give. *)
Inductive opt_value : Type :=
| ONone
| OBool (b : bool)
| OInt (z : Z)
| OStr (s : string)
| OTypes (column_types : list (string * string))
| OJson (text : string).

(** The value as a Python int, where it is one ([bool] is a subclass of
    [int]). *)
Definition as_int (v : opt_value) : option Z :=
  match v with
  | OInt z => Some z
  | OBool b => Some (Z.b2z b)
  | _ => None
  end.

(** Arrow data types as far as this parser names them. *)
Inductive arrow_type : Type :=
| pa_string
| pa_type (name : string).

#[global] Instance arrow_type_eq_decision : EqDecision arrow_type.
Proof. solve_decision. Defined.

(** Modelled from the spec: [CsvFormat] of [csv_spec.py], which is not in
    the sources; the fields are those of the spec's FormatConfig. The two
    option bags are JSON texts in the source and are held here already
    parsed ([json.loads]). *)
Record CsvFormat : Type := {
  delimiter : string;
  quote_char : string;
  escape_char : option string;
  double_quote : bool;
  newlines_in_values : bool;
  block_size : Z;
  encoding : string;
  infer_datatypes : bool;
  advanced_options : gmap string opt_value;
  additional_reader_options : gmap string opt_value
}.

(** The parser object: its format and [self._master_schema]. *)
Record CsvParser : Type := {
  format : CsvFormat;
  _master_schema : option (list (string * string))
}.

(** [FileInfo]: the two attributes [stream_records] reads. *)
Record FileInfo : Type := { key : string; size : Z }.

Definition ascii_lower (c : Ascii.ascii) : Ascii.ascii :=
  let n := Ascii.nat_of_ascii c in
  if ((65 <=? n)%nat && (n <=? 90)%nat)%bool then Ascii.ascii_of_nat (n + 32) else c.

(** [s.lower()] on ASCII text. *)
Fixpoint str_lower (s : string) : string :=
  match s with
  | EmptyString => EmptyString
  | String c s' => String (ascii_lower c) (str_lower s')
  end.

(** [s.replace(c, empty)] for a one-character [c]. *)
Fixpoint str_remove (c : Ascii.ascii) (s : string) : string :=
  match s with
  | EmptyString => EmptyString
  | String x s' => if Ascii.eqb x c then str_remove c s' else String x (str_remove c s')
  end.

(** [s.endswith(suffix)]. *)
Definition str_endswith (suffix s : string) : bool :=
  let n := String.length s in
  let m := String.length suffix in
  ((m <=? n)%nat && String.eqb (String.substring (n - m) m s) suffix)%bool.

(** [{**a, **b}]: the entries of [b] win. *)
Definition dict_merge {V} (a b : gmap string V) : gmap string V := b ∪ a.

Definition opt_of_escape (e : option string) : opt_value :=
  match e with Some c => OStr c | None => ONone end.

Definition _read_options (self : CsvParser) : gmap string opt_value :=
  dict_merge
    (<["encoding" := OStr (encoding (format self))]>
       (<["block_size" := OInt (block_size (format self))]> ∅))
    (advanced_options (format self)).

Definition _parse_options (self : CsvParser) : gmap string opt_value :=
  <["newlines_in_values" := OBool (newlines_in_values (format self))]>
    (<["escape_char" := opt_of_escape (escape_char (format self))]>
       (<["double_quote" := OBool (double_quote (format self))]>
          (<["quote_char" := OStr (quote_char (format self))]>
             (<["delimiter" := OStr (delimiter (format self))]> ∅)))).

(** The result of a call that may not come back: it completes after some
    seconds with a value, or it hangs. *)
Inductive run (A : Type) : Type :=
| Completes (seconds : Z) (a : A)
| Hangs.
Arguments Completes {A} seconds a.
Arguments Hangs {A}.

(** A [pyarrow.RecordBatch]: its columns in schema order, each with its
    field name and its values. *)
Abbreviation Batch Value := (list (string * list Value)).

(** The streaming reader seen from [read_next_batch]: a batch and the
    reader after it, [StopIteration], or another exception. *)
Inductive Reader (Value : Type) : Type :=
| StopIteration
| NextBatch (batch : Batch Value) (rest : Reader Value)
| ReadError (e : exc).
Arguments StopIteration {Value}.
Arguments NextBatch {Value} batch rest.
Arguments ReadError {Value} e.

(** A record handed to the pipeline: a dict from column name to value. *)
Abbreviation record Value := (gmap string Value).

(** The dict handed back by the schema step: column name to Arrow type. *)
Abbreviation schema_dict := (gmap string arrow_type).

(** The interfaces this parser calls and does not define: pyarrow's CSV
    reader, the schema conversion of [AbstractFileParser], [six] and the
    [csv] module. *)
Class Libraries (Value : Type) : Type := {
  (** [pa.csv.open_csv(file, ReadOptions, ParseOptions, ConvertOptions)] *)
  pa_open_csv : bytes -> gmap string opt_value -> gmap string opt_value ->
                gmap string opt_value -> outcome (Reader Value);
  (** the same call on a sample, up to [streaming_reader.schema]: the
      fields in order, the time it takes, or no return at all *)
  pa_open_csv_schema : bytes -> gmap string opt_value -> gmap string opt_value ->
                       gmap string opt_value ->
                       run (outcome (list (string * arrow_type)));
  (** [self.json_schema_to_pyarrow_schema(json_schema)] *)
  json_schema_to_pyarrow_schema : list (string * string) -> list (string * string);
  (** [six.ensure_text(line)] *)
  ensure_text : bytes -> outcome string;
  (** [next(csv.reader([line], delimiter=..., quotechar=...))] *)
  csv_reader_next : string -> string -> string -> outcome (list string);
  (** [field_name.strip()] *)
  str_strip : string -> string
}.

Section Parser.
Context {Value : Type} {libs : Libraries Value} {wb : WriteBuffer}.

Definition _convert_options (self : CsvParser)
    (json_schema : option (list (string * string))) : gmap string opt_value :=
  let check_utf8 :=
    bool_decide (str_remove "-"%char (str_lower (encoding (format self))) = "utf8") in
  let convert_schema :=
    match json_schema with
    | Some js => OTypes (json_schema_to_pyarrow_schema js)
    | None => ONone
    end in
  dict_merge
    (<["column_types" := convert_schema]> (<["check_utf8" := OBool check_utf8]> ∅))
    (additional_reader_options (format self)).

(** ** [CsvParser.__read_stream_by_chunks] *)

Definition key_error (k : string) : exc := Exc "KeyError" k true.
Definition index_error : exc := Exc "IndexError" "index out of range" true.

(** [batch.to_pydict()]: an entry per column, in order. *)
Definition to_pydict (batch : Batch Value) : gmap string (list Value) :=
  foldl (λ d c, <[c.1 := c.2]> d) ∅ batch.

(** [[batch_dict[column] for column in batch_columns]] *)
Fixpoint columns_of (batch_dict : gmap string (list Value))
    (batch_columns : list string) : outcome (list (list Value)) :=
  match batch_columns with
  | [] => Returns []
  | column :: rest =>
    match batch_dict !! column with
    | None => Raises (key_error column)
    | Some values =>
      match columns_of batch_dict rest with
      | Raises e => Raises e
      | Returns cols => Returns (values :: cols)
      end
    end
  end.

(** One step of [zip]: the next item of every iterator, if all have one. *)
Fixpoint heads (cols : list (list Value)) : option (list Value) :=
  match cols with
  | [] => Some []
  | [] :: _ => None
  | (x :: _) :: rest => (x ::.) <$> heads rest
  end.

Fixpoint zip_loop (fuel : nat) (cols : list (list Value)) : list (list Value) :=
  match fuel with
  | O => []
  | S fuel' =>
    match heads cols with
    | None => []
    | Some row => row :: zip_loop fuel' (tail <$> cols)
    end
  end.

(** [zip] over the unpacked list of columns: nothing without arguments, else as many tuples as the
    shortest argument has items; the first argument's length is fuel enough. *)
Definition zip_star (cols : list (list Value)) : list (list Value) :=
  match cols with
  | [] => []
  | c :: _ => zip_loop (length c) cols
  end.

(** [{batch_columns[i]: record_values[i] for i in range(len(batch_columns))}] *)
Fixpoint dict_of_indices (batch_columns : list string) (record_values : list Value)
    (indices : list nat) (d : record Value) : outcome (record Value) :=
  match indices with
  | [] => Returns d
  | i :: rest =>
    match batch_columns !! i, record_values !! i with
    | Some c, Some v => dict_of_indices batch_columns record_values rest (<[c := v]> d)
    | _, _ => Raises index_error
    end
  end.

Definition make_record (batch_columns : list string) (record_values : list Value)
  : outcome (record Value) :=
  dict_of_indices batch_columns record_values (seq 0 (length batch_columns)) ∅.

(** The [for record_values in zip ...] loop: records yielded, and how
    the loop ended. *)
Fixpoint yield_records (batch_columns : list string) (rows : list (list Value))
  : list (record Value) * gen_end :=
  match rows with
  | [] => ([], Finished)
  | record_values :: rest =>
    match make_record batch_columns record_values with
    | Raises e => ([], Raised e)
    | Returns r =>
      let '(ys, e) := yield_records batch_columns rest in (r :: ys, e)
    end
  end.

(** The [else] branch of the [try] for one batch. *)
Definition yield_batch (batch : Batch Value) : list (record Value) * gen_end :=
  let batch_dict := to_pydict batch in
  let batch_columns := batch.*1 in
  match columns_of batch_dict batch_columns with
  | Raises e => ([], Raised e)
  | Returns columnwise_record_values =>
    yield_records batch_columns (zip_star columnwise_record_values)
  end.

(** The [while still_reading] loop. *)
Fixpoint read_batches (streaming_reader : Reader Value)
  : list (record Value) * gen_end :=
  match streaming_reader with
  | StopIteration => ([], Finished)
  | ReadError e => ([], Raised e)
  | NextBatch batch rest =>
    match yield_batch batch with
    | (ys, Raised e) => (ys, Raised e)
    | (ys, Finished) => let '(ys', e) := read_batches rest in (ys ++ ys', e)
    end
  end.

Definition read_stream_by_chunks (self : CsvParser) (file : bytes)
  : list (record Value) * gen_end :=
  match pa_open_csv file (_read_options self) (_parse_options self)
          (_convert_options self (_master_schema self)) with
  | Raises e => ([], Raised e)
  | Returns streaming_reader => read_batches streaming_reader
  end.

(** ** [CsvParser.stream_records]: the two-argument definition, which
    replaces the one-argument one earlier in the class body. *)

(** What a consumer of the generator can observe. *)
Inductive event : Type :=
| Yield (r : record Value)
| ChunkWritten (content : bytes)
| TempFileCleanup.

(** How a statement of a generator body ends. *)
Inductive flow : Type :=
| Next
| Return
| Throw (e : exc).

Definition stmt : Type := list event * flow.

(** [s1; s2]: [s2] runs only when [s1] falls through. *)
Definition seq_stmt (s1 s2 : stmt) : stmt :=
  match s1 with
  | (ev, Next) => let '(ev', f) := s2 in (ev ++ ev', f)
  | _ => s1
  end.

(** [yield from g] *)
Definition yield_from (g : list (record Value) * gen_end) : stmt :=
  match g with
  | (ys, Finished) => (Yield <$> ys, Next)
  | (ys, Raised e) => (Yield <$> ys, Throw e)
  end.

(** [try: s finally: cleanup] *)
Definition try_finally (s : stmt) : stmt :=
  let '(ev, f) := s in (ev ++ [TempFileCleanup], f).

(** [for temp_descriptor in chunks: yield from ...; temp_descriptor.close()] *)
Fixpoint for_chunks (self : CsvParser) (chunks : list bytes) (e : gen_end) : stmt :=
  match chunks with
  | [] => match e with Finished => ([], Next) | Raised x => ([], Throw x) end
  | c :: rest =>
    seq_stmt ([ChunkWritten c], Next)
      (seq_stmt (yield_from (read_stream_by_chunks self c)) (for_chunks self rest e))
  end.

(** A whole generator: its events and how it ended. *)
Definition run_generator (s : stmt) : list event * gen_end :=
  match s with
  | (ev, Throw e) => (ev, Raised e)
  | (ev, _) => (ev, Finished)
  end.

(** The statements after the first [return]; the engine has left
    [file] at its end by then. *)
Definition stream_records_rest (self : CsvParser) (file : bytes)
    (file_info : FileInfo) : stmt :=
  seq_stmt
    (if ((size file_info <? MAX_CHUNK_SIZE)
         || negb (str_endswith ".csv" (key file_info)))%bool
     then seq_stmt (yield_from (read_stream_by_chunks self file)) ([], Return)
     else ([], Next))
    (try_finally
       match create_chunk file with
       | None => ([], Next)
       | Some (chunks, e) => for_chunks self chunks e
       end).

Definition stream_records (self : CsvParser) (file : bytes) (file_info : FileInfo)
  : list event * gen_end :=
  run_generator
    (seq_stmt (yield_from (read_stream_by_chunks self file))
       (seq_stmt ([], Return) (stream_records_rest self [] file_info))).

(** ** Schema derivation *)

(** [{field_name.strip(): pyarrow.string() for field_name in field_names}] *)
Definition string_schema (field_names : list string) : schema_dict :=
  foldl (λ d field_name, <[str_strip field_name := pa_string]> d) ∅ field_names.

(** [CsvParser._get_schema_dict_without_inference]: the result and the
    file position after. *)
Definition _get_schema_dict_without_inference (self : CsvParser) (file : bytes)
  : outcome schema_dict * bytes :=
  let delimiter := delimiter (format self) in
  let quote_char := quote_char (format self) in
  let '(line, file) := readline file in
  match ensure_text line with
  | Raises e => (Raises e, file)
  | Returns text =>
    match csv_reader_next text delimiter quote_char with
    | Raises e => (Raises e, file)
    | Returns field_names => (Returns (string_schema field_names), file)
    end
  end.

(** [{field.name: field.type for field in streaming_reader.schema}] *)
Definition schema_of_fields (fields : list (string * arrow_type)) : schema_dict :=
  foldl (λ d field, <[field.1 := field.2]> d) ∅ fields.

(** [infer_schema_process], the function run in the other process: the
    pair [(schema_dict, None)] or [(None, e)]. [except Exception] lets an
    exception outside [Exception] through. *)
Definition infer_schema_process (file_sample : bytes)
    (read_opts parse_opts convert_opts : gmap string opt_value)
  : run (outcome (option schema_dict * option exc)) :=
  match pa_open_csv_schema file_sample read_opts parse_opts convert_opts with
  | Hangs => Hangs
  | Completes t (Returns fields) =>
    Completes t (Returns (Some (schema_of_fields fields), None))
  | Completes t (Raises e) =>
    if exc_is_Exception e then Completes t (Returns (None, Some e))
    else Completes t (Raises e)
  end.

Definition timeout_error : exc :=
  Exc "TimeoutError" "Timed out too many times while running infer_schema_process" true.

(** Modelled from the spec: one try of the isolated run under a timeout
    ([run_in_external_process] of [utils.py] is not in the sources). The
    worker answers within the timeout with its pair, or the time is spent. *)
Definition attempt {A} (worker : run (outcome A)) (timeout : Z) : option A * Z :=
  match worker with
  | Completes t (Returns a) => if t <=? timeout then (Some a, t) else (None, timeout)
  | _ => (None, timeout)
  end.

(** What the caller does with the pair sent back: "If return[1] is not
    None and holds an exception we then raise this in the main process",
    else the first component is the result. *)
Definition deliver (answer : option schema_dict * option exc)
  : outcome (option schema_dict) :=
  match answer with
  | (_, Some e) => Raises e
  | (result, None) => Returns result
  end.

(** Modelled from the spec: [run_in_external_process] of [utils.py],
    which is not in the sources. "The isolated run is bounded by an
    initial timeout; on timeout it may be retried once with a larger
    timeout ceiling ([max_timeout]); if it still does not complete, the
    call fails with a TimeoutError"; an exception of the run is
    "propagated back to the caller". The result comes with the seconds
    spent waiting. *)
Definition run_in_external_process
    (fn : run (outcome (option schema_dict * option exc)))
    (timeout max_timeout : Z) : outcome (option schema_dict) * Z :=
  match attempt fn timeout with
  | (Some answer, t) => (deliver answer, t)
  | (None, t) =>
    match attempt fn max_timeout with
    | (Some answer, t') => (deliver answer, t + t')
    | (None, t') => (Raises timeout_error, t + t')
    end
  end.

(** [block_size * 2], or [file.read] of it, when the value is not an int. *)
Definition type_error : exc := Exc "TypeError" "argument should be integer or None" true.

(** [CsvParser._get_schema_dict]: the result, the seconds spent waiting
    for the other process, and the file position after. *)
Definition _get_schema_dict (self : CsvParser) (file : bytes)
  : outcome (option schema_dict) * Z * bytes :=
  if negb (infer_datatypes (format self)) then
    let '(r, file) := _get_schema_dict_without_inference self file in
    (match r with Returns d => Returns (Some d) | Raises e => Raises e end, 0, file)
  else
    match _read_options self !! "block_size" with
    | None => (Raises (key_error "block_size"), 0, file)
    | Some v =>
      match as_int v with
      | None => (Raises type_error, 0, file)
      | Some block_size =>
        let '(file_sample, file) := read (block_size * 2) file in
        let '(r, t) :=
          run_in_external_process
            (infer_schema_process file_sample (_read_options self)
               (_parse_options self) (_convert_options self None))
            4 60 in
        (r, t, file)
      end
    end.
End Parser.

Section Batches.
Context {Value : Type}.

(** Number of rows of a batch: the length of its first column. *)
Definition num_rows (batch : Batch Value) : nat :=
  match batch with
  | [] => 0
  | c :: _ => length c.2
  end.

(** A record batch has columns of one length; pyarrow builds no other.
    Nothing is asked of the column names: the engine hands them out as the
    header has them, repeated names included. *)
Definition rectangular (batch : Batch Value) : Prop :=
  Forall (λ c, length c.2 = num_rows batch) batch.

(** The reader that hands out the given batches, then stops. *)
Definition reader_of (batches : list (Batch Value)) : Reader Value :=
  foldr NextBatch StopIteration batches.

(** [rows] is [batch] row by row: one record per row, in row order, whose
    keys are the column names of the batch as they stand, and whose value
    under a name is the value in that row of the last column of that name
    (of column [j], for every [j], when no name is repeated). *)
Definition transposed (batch : Batch Value) (rows : list (record Value)) : Prop :=
  length rows = num_rows batch
  ∧ ∀ (i : nat) r, rows !! i = Some r ->
      dom r = list_to_set batch.*1
      ∧ ∀ (j : nat) name col, batch !! j = Some (name, col) ->
          (∀ (j' : nat) col', (j < j')%nat -> batch !! j' ≠ Some (name, col')) ->
          r !! name = col !! i.
End Batches.

(** C1 read literally, for one stream: the keys of every record yielded
    are the header's trimmed column names, that is, the keys of the schema
    that [_get_schema_dict_without_inference] reads off the same header. *)
Definition keyed_by_trimmed_header {Value : Type} {libs : Libraries Value}
    {wb : WriteBuffer} (self : CsvParser) (file : bytes) (file_info : FileInfo) : Prop :=
  ∀ (d : schema_dict) (rest : bytes),
    _get_schema_dict_without_inference self file = (Returns d, rest) ->
    ∀ r : record Value,
      Yield r ∈ (stream_records self file file_info).1 -> dom r = dom d.

(** The inference ran on a sample of [2 * n] bytes from the head of the
    stream (all of the stream when it has fewer), and the stream is left
    right after the sample. *)
Definition sample_taken {Value : Type} {libs : Libraries Value}
    (self : CsvParser) (file : bytes) (n : Z) : Prop :=
  ∃ sample rest : bytes,
    file = sample ++ rest
    ∧ len sample = Z.min (n * 2) (len file)
    ∧ _get_schema_dict self file
      = ((run_in_external_process
            (infer_schema_process sample (_read_options self) (_parse_options self)
               (_convert_options self None)) 4 60).1,
         (run_in_external_process
            (infer_schema_process sample (_read_options self) (_parse_options self)
               (_convert_options self None)) 4 60).2,
         rest).


(** ** A stand-in for the libraries, to run the parser on examples *)

(** [io.DEFAULT_BUFFER_SIZE] *)
Definition DEFAULT_BUFFER_SIZE : WriteBuffer := 8192.

(** Fields of one line of unquoted text. *)
Fixpoint split_fields (d : Ascii.ascii) (s : string) : list string :=
  match s with
  | EmptyString => [EmptyString]
  | String c s' =>
    if Ascii.eqb c "010"%char then [EmptyString]
    else if Ascii.eqb c d then EmptyString :: split_fields d s'
    else match split_fields d s' with
         | f :: fs => String c f :: fs
         | [] => [String c EmptyString]
         end
  end.

Fixpoint lstrip (s : string) : string :=
  match s with
  | String c s' => if Ascii.eqb c " "%char then lstrip s' else s
  | EmptyString => EmptyString
  end.

Definition strip_spaces (s : string) : string :=
  String.rev (lstrip (String.rev (lstrip s))).

Definition head_char (s : string) : Ascii.ascii :=
  match s with String c _ => c | EmptyString => ","%char end.

Definition example_batch : Batch Z :=
  [("id", [1; 2]); ("name", [10; 20]); ("score", [9; 10])].

(** An engine that reads every stream as [example_batch], and takes
    [seconds] to find a schema. *)
Definition example_libraries (seconds : Z) : Libraries Z := {|
  pa_open_csv := λ _ _ _ _, Returns (reader_of [example_batch]);
  pa_open_csv_schema := λ _ _ _ _,
    Completes seconds (Returns [("id", pa_type "int64"); ("name", pa_string);
                                ("score", pa_type "double")]);
  json_schema_to_pyarrow_schema := λ js, js;
  ensure_text := λ b, Returns (String.string_of_list_byte b);
  csv_reader_next := λ line d _, Returns (split_fields (head_char d) line);
  str_strip := strip_spaces
|}.

(** An engine whose schema scan raises [e] after [seconds]. *)
Definition failing_libraries (seconds : Z) (e : exc) : Libraries Z := {|
  pa_open_csv := λ _ _ _ _, Raises e;
  pa_open_csv_schema := λ _ _ _ _, Completes seconds (Raises e);
  json_schema_to_pyarrow_schema := λ js, js;
  ensure_text := λ b, Returns (String.string_of_list_byte b);
  csv_reader_next := λ line d _, Returns (split_fields (head_char d) line);
  str_strip := strip_spaces
|}.

Definition arrow_invalid : exc := Exc "ArrowInvalid" "CSV parse error" true.

Definition example_format (infer : bool) : CsvFormat := {|
  delimiter := ",";
  quote_char := "'";
  escape_char := None;
  double_quote := true;
  newlines_in_values := false;
  block_size := 10000;
  encoding := "utf8";
  infer_datatypes := infer;
  advanced_options := ∅;
  additional_reader_options := ∅
|}.

Definition example_parser (infer : bool) : CsvParser :=
  {| format := example_format infer; _master_schema := None |}.

(** [id, name ,score\n1,Alice,9\n] *)
Definition example_file : bytes :=
  [x69; x64; x2c; x20; x6e; x61; x6d; x65; x20; x2c; x73; x63; x6f; x72; x65; x0a;
   x31; x2c; x41; x6c; x69; x63; x65; x2c; x39; x0a].

Definition example_file_info : FileInfo :=
  {| key := "big.csv"; size := 100 * 1024 ^ 2 |}.

(** Lines of a text, without their terminators. *)
Fixpoint split_lines (s : string) : list string :=
  match s with
  | EmptyString => []
  | String c s' =>
    if Ascii.eqb c "010"%char then EmptyString :: split_lines s'
    else match split_lines s' with
         | l :: ls => String c l :: ls
         | [] => [String c EmptyString]
         end
  end.

(** A text of unquoted lines as one batch of text columns: the fields of
    the first line are the column names, taken as they stand. *)
Definition verbatim_batch (d : Ascii.ascii) (text : string) : Batch string :=
  match split_lines text with
  | [] => []
  | header :: rows =>
    imap (λ j name, (name, (λ row, default EmptyString (split_fields d row !! j)) <$> rows))
         (split_fields d header)
  end.

(** An engine for unquoted text which, as pyarrow does, takes the column
    names from the header line as they stand, spaces included. *)
Definition verbatim_libraries : Libraries string := {|
  pa_open_csv := λ file _ parse_options _,
    let d := match parse_options !! "delimiter" with
             | Some (OStr d) => head_char d
             | _ => ","%char
             end in
    Returns (reader_of [verbatim_batch d (String.string_of_list_byte file)]);
  pa_open_csv_schema := λ _ _ _ _, Hangs;
  json_schema_to_pyarrow_schema := λ js, js;
  ensure_text := λ b, Returns (String.string_of_list_byte b);
  csv_reader_next := λ line d _, Returns (split_fields (head_char d) line);
  str_strip := strip_spaces
|}.

(** ** Readers that may fail *)

(** How a reader ends: with [StopIteration], or with another exception. *)
Fixpoint reader_end {Value} (reader : Reader Value) : gen_end :=
  match reader with
  | StopIteration => Finished
  | ReadError e => Raised e
  | NextBatch _ rest => reader_end rest
  end.

(** The batches a reader hands out before it ends. *)
Fixpoint reader_batches {Value} (reader : Reader Value) : list (Batch Value) :=
  match reader with
  | NextBatch batch rest => batch :: reader_batches rest
  | _ => []
  end.

(** An engine that hands out [example_batch] and then fails. *)
Definition interrupted_libraries : Libraries Z := {|
  pa_open_csv := λ _ _ _ _, Returns (NextBatch example_batch (ReadError arrow_invalid));
  pa_open_csv_schema := λ _ _ _ _, Hangs;
  json_schema_to_pyarrow_schema := λ js, js;
  ensure_text := λ b, Returns (String.string_of_list_byte b);
  csv_reader_next := λ line d _, Returns (split_fields (head_char d) line);
  str_strip := strip_spaces
|}.

(** * Properties *)

Example find_line_end_ex :
  find_line_end [x61; x2c; x62; x0a; x31; x2c; x32; x0a]
  = Some (Returns ([x61; x2c; x62], [x0a; x31; x2c; x32; x0a]), []).
Proof. vm_compute. reflexivity. Qed.

Example create_chunk_ex :
  create_chunk (wb := DEFAULT_BUFFER_SIZE) [x61; x0a; x31; x0a; x32]
  = Some ([[x61; x0a; x31; x0a; x32]], Finished).
Proof. vm_compute. reflexivity. Qed.

(** ** Arithmetic on byte strings *)

Lemma MAX_CHUNK_SIZE_eq : MAX_CHUNK_SIZE = 52428800.
Proof. reflexivity. Qed.

Lemma len_nonneg (b : bytes) : 0 <= len b.
Proof. unfold len. lia. Qed.

Lemma len_nil : len [] = 0.
Proof. reflexivity. Qed.

Lemma len_app (a b : bytes) : len (a ++ b) = len a + len b.
Proof. unfold len. rewrite length_app. lia. Qed.

Lemma len_take (n : Z) (b : bytes) :
  0 <= n -> len (take (Z.to_nat n) b) = Z.min n (len b).
Proof. intros Hn. unfold len. rewrite length_take. lia. Qed.

Lemma len_drop (n : Z) (b : bytes) :
  0 <= n -> len (drop (Z.to_nat n) b) = Z.max 0 (len b - n).
Proof. intros Hn. unfold len. rewrite length_drop. lia. Qed.

Lemma len_zero_nil (b : bytes) : len b = 0 -> b = [].
Proof. unfold len. destruct b; simpl; [done | lia]. Qed.

Lemma take_nil_inv {A} (n : nat) (l : list A) : (0 < n)%nat -> take n l = [] -> l = [].
Proof. intros Hn H. destruct n; [lia |]. destruct l; [done | discriminate]. Qed.

(** ** [bytes.find] *)

Lemma find_from_notin i sub (b : bytes) : sub ∉ b -> find_from i sub b = -1.
Proof.
  revert i. induction b as [| x b IH]; intros i Hni; simpl; [done |].
  rewrite not_elem_of_cons in Hni. destruct Hni as [Hne Hni].
  rewrite bool_decide_eq_false_2 by congruence. by apply IH.
Qed.

Lemma find_from_in i sub (b : bytes) :
  sub ∈ b ->
  ∃ k : nat, find_from i sub b = i + Z.of_nat k ∧ Nat.lt k (length b)
             ∧ (sub ∉ take k b) ∧ drop k b = sub :: drop (S k) b.
Proof.
  revert i. induction b as [| x b IH]; intros i Hin.
  - by apply elem_of_nil in Hin.
  - simpl. destruct (decide (x = sub)) as [-> | Hne].
    + rewrite bool_decide_eq_true_2 by done. exists O. simpl.
      split; [lia |]. split; [lia |]. split; [apply not_elem_of_nil | by rewrite drop_0].
    + rewrite bool_decide_eq_false_2 by done.
      apply elem_of_cons in Hin. destruct Hin as [-> | Hin]; [done |].
      destruct (IH (i + 1) Hin) as (k & Hk & Hlt & Hni & Hdrop).
      exists (S k). simpl. split; [lia |]. split; [lia |]. split; [| done].
      rewrite not_elem_of_cons. split; [congruence | done].
Qed.

Lemma bytes_find_notin sub (b : bytes) : sub ∉ b -> bytes_find sub b = -1.
Proof. apply find_from_notin. Qed.

Lemma bytes_find_in sub (b : bytes) :
  sub ∈ b ->
  ∃ k : nat, bytes_find sub b = Z.of_nat k ∧ Nat.lt k (length b)
             ∧ (sub ∉ take k b) ∧ drop k b = sub :: drop (S k) b.
Proof.
  intros Hin. destruct (find_from_in 0 sub b Hin) as (k & Hk & H).
  exists k. split; [unfold bytes_find; lia | done].
Qed.

Lemma bytes_find_neg_iff sub (b : bytes) : bytes_find sub b = -1 <-> sub ∉ b.
Proof.
  split; [| apply bytes_find_notin].
  intros H Hin. destruct (bytes_find_in sub b Hin) as (k & Hk & _). lia.
Qed.

Lemma find_from_app_notin (i : Z) (l t : bytes) :
  NL ∉ l -> find_from i NL (l ++ NL :: t) = i + len l.
Proof.
  intros Hni. unfold len. revert i. induction l as [| x l IH]; intros i.
  - cbn. rewrite bool_decide_eq_true_2 by done. lia.
  - apply not_elem_of_cons in Hni. destruct Hni as [Hne Hni].
    cbn [app find_from length]. rewrite bool_decide_eq_false_2 by done.
    rewrite IH by done. lia.
Qed.

Lemma bytes_find_app_notin (l t : bytes) :
  NL ∉ l -> bytes_find NL (l ++ NL :: t) = len l.
Proof. intros Hni. unfold bytes_find. by rewrite find_from_app_notin. Qed.

(** ** The line-boundary scanner *)

Lemma find_line_end_loop_unfold fuel left_part file :
  find_line_end_loop (S fuel) left_part file =
  match take (Z.to_nat 1024) file with
  | [] => Some (Returns ([], []), drop (Z.to_nat 1024) file)
  | _ :: _ =>
    let left_part := left_part ++ take (Z.to_nat 1024) file in
    if MAX_CHUNK_SIZE <? len left_part
    then Some (Raises line_too_long, drop (Z.to_nat 1024) file)
    else if -1 <? bytes_find NL left_part
         then Some (Returns (slice_to (bytes_find NL left_part) left_part,
                             slice_from (bytes_find NL left_part) left_part),
                    drop (Z.to_nat 1024) file)
         else find_line_end_loop fuel left_part (drop (Z.to_nat 1024) file)
  end.
Proof. reflexivity. Qed.

Lemma find_line_end_loop_shape fuel left_part file :
  (length file < fuel)%nat -> NL ∉ left_part ->
  ∃ r, find_line_end_loop fuel left_part file = Some r ∧ scan_post left_part file r.
Proof.
  revert left_part file.
  induction fuel as [| fuel IH]; intros left_part file Hfuel Hleft; [lia |].
  rewrite find_line_end_loop_unfold.
  destruct (take (Z.to_nat 1024) file) as [| c cs] eqn:Hchunk.
  - apply take_nil_inv in Hchunk; [| lia]. subst file.
    eexists. split; [done |]. left. rewrite drop_nil.
    repeat split; auto using not_elem_of_nil.
  - rewrite <- Hchunk. cbv zeta.
    destruct (MAX_CHUNK_SIZE <? len _) eqn:Hmax.
    { eexists. split; [done | done]. }
    destruct (decide (NL ∈ left_part ++ take (Z.to_nat 1024) file)) as [Hin | Hni].
    + destruct (bytes_find_in _ _ Hin) as (k & Hk & Hlt & Hpre & Hdrop).
      rewrite Hk. replace (-1 <? Z.of_nat k) with true by (symmetry; apply Z.ltb_lt; lia).
      eexists. split; [done |]. right. unfold slice_to, slice_from.
      rewrite Nat2Z.id. split; [| split; [done | eauto]].
      rewrite app_assoc, take_drop, <- app_assoc, take_drop. done.
    + rewrite (bytes_find_notin _ _ Hni). change (-1 <? -1) with false. cbv iota.
      destruct (IH (left_part ++ take (Z.to_nat 1024) file) (drop (Z.to_nat 1024) file))
        as (r & Hr & Hpost); [| done |].
      { rewrite length_drop.
        assert (length (take (Z.to_nat 1024) file) ≠ 0%nat) by (rewrite Hchunk; simpl; lia).
        rewrite length_take in *. lia. }
      exists r. split; [done |].
      destruct r as [[[l r] | e] file']; [| done]. simpl in *.
      destruct Hpost as [(-> & -> & -> & Hn) | (Heq & Hl & Hr')].
      * left. repeat split; try done.
        rewrite <- (take_drop (Z.to_nat 1024) file).
        rewrite not_elem_of_app in *. split; [tauto | done].
      * right. split; [| done].
        rewrite Heq, <- app_assoc, take_drop. done.
Qed.

Lemma elem_of_take_le {A} (x : A) (n m : nat) (l : list A) :
  x ∈ take n l -> (length (take n l) <= m)%nat -> x ∈ take m l.
Proof.
  rewrite !elem_of_take. intros (i & Hi & Hlt) Hlen.
  exists i. split; [done |].
  apply lookup_lt_Some in Hi. rewrite length_take in Hlen. lia.
Qed.

(** The error is raised exactly when a pass leaves more than 50 MiB
    accumulated: the part still to accumulate holds no terminator in its
    first [MAX_CHUNK_SIZE - len left_part] bytes and is longer than that. *)
Lemma find_line_end_loop_raises_iff fuel left_part file (j : Z) :
  (length file < fuel)%nat -> NL ∉ left_part ->
  len left_part = 1024 * j -> len left_part <= MAX_CHUNK_SIZE ->
  scan_raises (find_line_end_loop fuel left_part file)
  <-> (NL ∉ take (Z.to_nat (MAX_CHUNK_SIZE - len left_part)) file)
      ∧ MAX_CHUNK_SIZE - len left_part < len file.
Proof.
  pose proof MAX_CHUNK_SIZE_eq as HM.
  revert left_part file j.
  induction fuel as [| fuel IH]; intros left_part file j Hfuel Hleft Hj Hle; [lia |].
  rewrite find_line_end_loop_unfold.
  destruct (take (Z.to_nat 1024) file) as [| c cs] eqn:Hchunk.
  - apply take_nil_inv in Hchunk; [| lia]. subst file.
    split.
    + intros [f' Hf]. discriminate.
    + intros [_ Hlen]. rewrite len_nil in Hlen. lia.
  - rewrite <- Hchunk. cbv zeta.
    assert (Hclen : 0 < len (take (Z.to_nat 1024) file) <= 1024).
    { rewrite Hchunk at 1. rewrite len_take by lia.
      unfold len at 1. simpl. pose proof (len_nonneg file). lia. }
    assert (Hfile : len file = len (take (Z.to_nat 1024) file) + len (drop (Z.to_nat 1024) file))
      by (by rewrite <- len_app, take_drop).
    pose proof (len_nonneg (drop (Z.to_nat 1024) file)) as Hrest.
    rewrite len_app.
    destruct (MAX_CHUNK_SIZE <? _) eqn:Hmax.
    { apply Z.ltb_lt in Hmax. split; [intros _ | intros _; by eexists].
      assert (len left_part = MAX_CHUNK_SIZE) as -> by lia.
      rewrite Z.sub_diag. change (Z.to_nat 0) with O. rewrite take_0.
      split; [apply not_elem_of_nil | lia]. }
    apply Z.ltb_ge in Hmax.
    destruct (decide (NL ∈ left_part ++ take (Z.to_nat 1024) file)) as [Hin | Hni].
    + destruct (bytes_find_in _ _ Hin) as (k & Hk & Hlt & Hpre & Hdrop).
      rewrite Hk. replace (-1 <? Z.of_nat k) with true by (symmetry; apply Z.ltb_lt; lia).
      split; [intros [f' Hf]; discriminate |]. intros [Hnot _]. exfalso.
      apply elem_of_app in Hin. destruct Hin as [Hin | Hin]; [done |].
      apply Hnot. eapply elem_of_take_le; [exact Hin |]. unfold len in *. lia.
    + rewrite (bytes_find_notin _ _ Hni). change (-1 <? -1) with false. cbv iota.
      apply not_elem_of_app in Hni. destruct Hni as [_ Hni].
      destruct (decide (len (take (Z.to_nat 1024) file) = 1024)) as [Hfull | Hshort].
      * rewrite (IH _ _ (j + 1)); [| | | rewrite len_app; lia | rewrite len_app; lia].
        2:{ rewrite length_drop. unfold len in *. lia. }
        2:{ apply not_elem_of_app. done. }
        rewrite len_app, Hfull.
        replace (Z.to_nat (MAX_CHUNK_SIZE - len left_part))
          with (Z.to_nat 1024 + Z.to_nat (MAX_CHUNK_SIZE - (len left_part + 1024)))%nat by lia.
        rewrite <- take_take_drop, not_elem_of_app. 
        split; [intros [H1 H2] | intros [[_ H1] H2]]; (split; [tauto | lia]).
      * assert (Hnil : drop (Z.to_nat 1024) file = []).
        { apply drop_ge. rewrite len_take in Hshort by lia. unfold len in *. lia. }
        rewrite Hnil. destruct fuel as [| fuel]; [unfold len in *; rewrite Hnil in *; simpl in *; lia |].
        rewrite find_line_end_loop_unfold, take_nil.
        rewrite Hnil, len_nil in Hfile.
        split; [intros [f' Hf]; discriminate | intros [_ Hlen]; lia].
Qed.

(** One pass suffices when the first 1 KiB block holds a terminator. *)
Lemma find_line_end_first_block (file : bytes) (k : nat) :
  bytes_find NL (take (Z.to_nat 1024) file) = Z.of_nat k ->
  find_line_end file
  = Some (Returns (take k file, drop k (take (Z.to_nat 1024) file)),
          drop (Z.to_nat 1024) file).
Proof.
  intros Hk. unfold find_line_end. rewrite find_line_end_loop_unfold.
  destruct (take (Z.to_nat 1024) file) as [| c cs] eqn:Hchunk.
  { unfold bytes_find in Hk. simpl in Hk. lia. }
  rewrite <- Hchunk in *. cbv zeta. rewrite app_nil_l.
  pose proof MAX_CHUNK_SIZE_eq.
  replace (MAX_CHUNK_SIZE <? _) with false.
  2:{ symmetry. apply Z.ltb_ge. rewrite len_take by lia. lia. }
  rewrite Hk. replace (-1 <? Z.of_nat k) with true by (symmetry; apply Z.ltb_lt; lia).
  unfold slice_to, slice_from. rewrite Nat2Z.id, take_take.
  assert (NL ∈ take (Z.to_nat 1024) file) as Hin.
  { apply dec_stable. intros Hni. apply bytes_find_notin in Hni. lia. }
  destruct (bytes_find_in _ _ Hin) as (k' & Hk' & Hlt & _).
  rewrite length_take in Hlt.
  replace (k `min` Z.to_nat 1024)%nat with k by lia. done.
Qed.

Lemma notin_take_find (n : nat) sub (b : bytes) :
  sub ∉ take n b <-> bytes_find sub b = -1 ∨ Z.of_nat n <= bytes_find sub b.
Proof.
  destruct (decide (sub ∈ b)) as [Hin | Hni].
  - destruct (bytes_find_in _ _ Hin) as (k & Hk & Hlt & Hpre & Hdrop).
    rewrite Hk. split.
    + intros Hn. right. destruct (decide (n <= k)%nat); [lia | exfalso].
      apply Hn. apply elem_of_take. exists k. split; [| lia].
      rewrite <- (take_drop k b), Hdrop, lookup_app_r; rewrite length_take; [| lia].
      by replace (k - k `min` length b)%nat with O by lia.
    + intros [? | Hle]; [lia |]. intros Hn. apply Hpre.
      eapply elem_of_take_le; [exact Hn |]. rewrite length_take. lia.
  - split; [intros _; left; by apply bytes_find_notin |].
    intros _ Hn. apply Hni. by apply (subseteq_take n b).
Qed.

Lemma find_from_replicate i sub a (n : nat) (t : bytes) :
  a ≠ sub -> find_from i sub (replicate n a ++ sub :: t) = i + Z.of_nat n.
Proof.
  intros Hne. revert i. induction n as [| n IH]; intros i.
  - cbn [replicate app find_from]. rewrite bool_decide_eq_true_2 by done. lia.
  - cbn [replicate app find_from]. rewrite bool_decide_eq_false_2 by done.
    rewrite IH. lia.
Qed.

Lemma len_replicate (n : nat) (a : byte) : len (replicate n a) = Z.of_nat n.
Proof. unfold len. by rewrite length_replicate. Qed.

(** The scanner always returns: the fuel given by [find_line_end] is enough. *)
Lemma find_line_end_total (file : bytes) :
  ∃ r, find_line_end file = Some r ∧ scan_post [] file r.
Proof. apply find_line_end_loop_shape; [lia | apply not_elem_of_nil]. Qed.

Lemma find_line_end_raises_low (file : bytes) :
  scan_raises (find_line_end file)
  <-> (NL ∉ take (Z.to_nat MAX_CHUNK_SIZE) file) ∧ MAX_CHUNK_SIZE < len file.
Proof.
  unfold find_line_end.
  rewrite (find_line_end_loop_raises_iff _ [] file 0);
    [| lia | apply not_elem_of_nil | done | rewrite len_nil, MAX_CHUNK_SIZE_eq; lia].
  rewrite len_nil, Z.sub_0_r. done.
Qed.

(** C9: a stream that ends before any terminator is found, without going
    over 50 MiB, makes [__find_line_end] return the pair of empty byte
    strings, with the stream left at its end, and no error. *)
Theorem find_line_end_exhausted (file : bytes) :
  bytes_find NL file = -1 -> len file <= MAX_CHUNK_SIZE ->
  find_line_end file = Some (Returns ([], []), []).
Proof.
  intros Hfind Hlen. apply bytes_find_neg_iff in Hfind.
  destruct (find_line_end_total file) as ([[[l r] | e] file'] & Hr & Hpost).
  - destruct Hpost as [(-> & -> & -> & _) | (Heq & _ & r' & ->)]; [done |].
    exfalso. apply Hfind. rewrite app_nil_l in Heq. rewrite <- Heq.
    apply elem_of_app. right. apply elem_of_cons. by left.
  - simpl in Hpost. subst e. exfalso.
    assert (scan_raises (find_line_end file)) as Hraise by (by exists file').
    apply find_line_end_raises_low in Hraise. lia.
Qed.

Lemma find_line_end_exhausted_witness :
  find_line_end [x61; x2c; x62] = Some (Returns ([], []), []).
Proof.
  apply (find_line_end_exhausted [x61; x2c; x62]).
  - reflexivity.
  - vm_compute. discriminate.
Defined.

(** C10: when the first terminator lies within the first 50 MiB of the
    stream, [__find_line_end] returns [(left, right)] where [left ++ right]
    is exactly what was consumed from the stream, [left] holds no [\n] and
    [right] starts with the [\n]: the terminator travels in the leftover. *)
Theorem find_line_end_split (file : bytes) :
  0 <= bytes_find NL file < MAX_CHUNK_SIZE ->
  ∃ left_part right_part file',
    find_line_end file = Some (Returns (left_part, right_part), file')
    ∧ file = (left_part ++ right_part) ++ file'
    ∧ (NL ∉ left_part)
    ∧ ∃ tail, right_part = NL :: tail.
Proof.
  intros Hfind.
  destruct (find_line_end_total file) as ([[[l r] | e] file'] & Hr & Hpost).
  - exists l, r, file'. split; [done |].
    destruct Hpost as [(_ & _ & _ & Hni) | (Heq & Hl & Hr')].
    + apply bytes_find_notin in Hni. lia.
    + rewrite app_nil_l in Heq. rewrite <- app_assoc. done.
  - simpl in Hpost. subst e. exfalso.
    assert (scan_raises (find_line_end file)) as Hraise by (by exists file').
    apply find_line_end_raises_low in Hraise. destruct Hraise as [Hni _].
    apply notin_take_find in Hni. pose proof MAX_CHUNK_SIZE_eq. lia.
Qed.

Lemma find_line_end_split_witness :
  ∃ left_part right_part file',
    find_line_end [x61; x2c; x62; x0a; x31; x2c; x32; x0a]
    = Some (Returns (left_part, right_part), file')
    ∧ [x61; x2c; x62; x0a; x31; x2c; x32; x0a] = (left_part ++ right_part) ++ file'
    ∧ (NL ∉ left_part)
    ∧ ∃ tail, right_part = NL :: tail.
Proof.
  apply (find_line_end_split [x61; x2c; x62; x0a; x31; x2c; x32; x0a]).
  vm_compute. split; [discriminate | reflexivity].
Defined.

(** C3, counterexample: a line of exactly 50 MiB followed by its terminator
    has a run of 50 MiB, not more, and still raises: the length test comes
    before the search and sees the block that holds the terminator. *)
Lemma find_line_end_raises_at_exactly_50MiB :
  ¬ raises_iff_run_exceeds run_of_exactly_50MiB.
Proof.
  unfold raises_iff_run_exceeds, run_of_exactly_50MiB. intros [Hraise _].
  pose proof MAX_CHUNK_SIZE_eq as HM.
  assert (Hfind : bytes_find NL (replicate (Z.to_nat MAX_CHUNK_SIZE) x61 ++ [NL])
                  = MAX_CHUNK_SIZE).
  { unfold bytes_find. rewrite find_from_replicate by discriminate. lia. }
  assert (Hrun : unterminated_run (replicate (Z.to_nat MAX_CHUNK_SIZE) x61 ++ [NL])
                 = MAX_CHUNK_SIZE).
  { unfold unterminated_run. rewrite Hfind.
    replace (-1 <? MAX_CHUNK_SIZE) with true by (symmetry; apply Z.ltb_lt; lia).
    reflexivity. }
  rewrite Hrun in Hraise. enough (MAX_CHUNK_SIZE < MAX_CHUNK_SIZE) by lia.
  apply Hraise. apply find_line_end_raises_low. split.
  - rewrite take_app_length' by (rewrite length_replicate; reflexivity).
    intros Hin. apply elem_of_replicate in Hin. destruct Hin as [Heq _]. discriminate.
  - rewrite len_app, len_replicate. change (len [NL]) with 1. lia.
Qed.

(** C3, as the code has it: [__find_line_end] raises exactly when the
    stream ahead is longer than 50 MiB and its first 50 MiB hold no [\n],
    that is, when the bytes accumulated in 1 KiB reads pass 50 MiB before a
    terminator has been seen in an earlier pass. *)
Theorem find_line_end_raises_iff (file : bytes) :
  scan_raises (find_line_end file)
  <-> MAX_CHUNK_SIZE <= unterminated_run file ∧ MAX_CHUNK_SIZE < len file.
Proof.
  pose proof MAX_CHUNK_SIZE_eq as HM.
  rewrite find_line_end_raises_low, notin_take_find. unfold unterminated_run.
  destruct (decide (NL ∈ file)) as [Hin | Hni].
  - destruct (bytes_find_in _ _ Hin) as (k & Hk & _). rewrite Hk.
    replace (-1 <? Z.of_nat k) with true by (symmetry; apply Z.ltb_lt; lia). lia.
  - rewrite (bytes_find_notin _ _ Hni). change (-1 <? -1) with false. lia.
Qed.

(** ** The temporary file *)

Section WriterFacts.
Context {wb : WriteBuffer}.

(** Whatever the buffer does, the file ends up with the bytes written, in
    the order they were written. *)
Lemma tf_close_write (tf : writer) (b : bytes) :
  tf_close (tf_write tf b) = tf_close tf ++ b.
Proof.
  unfold tf_write, tf_close.
  destruct (len b <=? buffer_size - len (pending tf)).
  { cbn [on_disk pending]. apply app_assoc. }
  destruct (buffer_size <? len b); cbn [on_disk pending].
  - rewrite app_nil_r. apply app_assoc.
  - reflexivity.
Qed.

Lemma tf_close_initial (headers tail_part : bytes) :
  tf_close (tf_write (tf_write open_wb headers) tail_part) = headers ++ tail_part.
Proof. rewrite !tf_close_write. reflexivity. Qed.

Lemma tf_close_flushed (content : bytes) : tf_close (Writer content []) = content.
Proof. apply app_nil_r. Qed.

(** The size seen by [os.stat] never runs ahead of what was written. *)
Lemma st_size_le_close (tf : writer) : st_size tf <= len (tf_close tf).
Proof.
  unfold st_size, tf_close. rewrite len_app. pose proof (len_nonneg (pending tf)). lia.
Qed.

(** A write larger than the buffer goes through: nothing stays behind. *)
Lemma tf_write_through (tf : writer) (b : bytes) :
  buffer_size < len b -> tf_write tf b = Writer (tf_close tf ++ b) [].
Proof.
  intros Hb. unfold tf_write, tf_close. pose proof (len_nonneg (pending tf)).
  replace (len b <=? buffer_size - len (pending tf)) with false
    by (symmetry; apply Z.leb_gt; lia).
  replace (buffer_size <? len b) with true by (symmetry; apply Z.ltb_lt; lia).
  rewrite app_assoc. reflexivity.
Qed.

(** A leftover that fits in the buffer is never on disk when the fill loop
    starts: the size seen there is at most that of the header bytes. *)
Lemma st_size_initial (headers tail_part : bytes) :
  len tail_part <= buffer_size ->
  st_size (tf_write (tf_write open_wb headers) tail_part) <= len headers.
Proof.
  intros Ht. pose proof (len_nonneg headers). pose proof (len_nonneg tail_part).
  unfold tf_write, open_wb, st_size. cbn [on_disk pending]. rewrite len_nil.
  destruct (len headers <=? buffer_size - 0) eqn:H1; cbn [on_disk pending].
  - rewrite app_nil_l.
    destruct (len tail_part <=? buffer_size - len headers) eqn:H2; cbn [on_disk pending].
    + rewrite len_nil. lia.
    + destruct (buffer_size <? len tail_part) eqn:H3; cbn [on_disk pending].
      * apply Z.ltb_lt in H3. lia.
      * rewrite !app_nil_l. lia.
  - destruct (buffer_size <? len headers) eqn:H2; cbn [on_disk pending].
    + rewrite len_nil.
      replace (len tail_part <=? buffer_size - 0) with true
        by (symmetry; apply Z.leb_le; lia).
      cbn [on_disk]. rewrite !app_nil_l. lia.
    + apply Z.leb_gt in H1. apply Z.ltb_ge in H2. lia.
Qed.

(** ** The chunk splitter *)

Lemma fill_loop_unfold fuel tf chunk file :
  fill_loop (S fuel) tf chunk file =
  if st_size tf <? MAX_CHUNK_SIZE then
    match take (Z.to_nat (1024 * 1024)) file with
    | [] => Some (tf, Some [], drop (Z.to_nat (1024 * 1024)) file)
    | _ :: _ =>
      fill_loop fuel (tf_write tf (take (Z.to_nat (1024 * 1024)) file))
        (Some (take (Z.to_nat (1024 * 1024)) file))
        (drop (Z.to_nat (1024 * 1024)) file)
    end
  else Some (tf, chunk, file).
Proof. reflexivity. Qed.

(** The source runs out before the file can reach 50 MiB: everything left
    is copied and [chunk] ends as the empty byte string. *)
Lemma fill_loop_eof fuel tf chunk file :
  (length file < fuel)%nat -> len (tf_close tf) + len file < MAX_CHUNK_SIZE ->
  ∃ tf', fill_loop fuel tf chunk file = Some (tf', Some [], [])
         ∧ tf_close tf' = tf_close tf ++ file.
Proof.
  revert tf chunk file.
  induction fuel as [| fuel IH]; intros tf chunk file Hfuel Hlen; [lia |].
  rewrite fill_loop_unfold. pose proof (len_nonneg file) as Hf.
  pose proof (st_size_le_close tf) as Hsz.
  replace (st_size tf <? MAX_CHUNK_SIZE) with true by (symmetry; apply Z.ltb_lt; lia).
  destruct (take (Z.to_nat (1024 * 1024)) file) as [| c cs] eqn:Hblk.
  - apply take_nil_inv in Hblk; [| lia]. subst file.
    exists tf. rewrite app_nil_r, drop_nil. split; reflexivity.
  - rewrite <- Hblk.
    assert (length (take (Z.to_nat (1024 * 1024)) file) ≠ 0%nat) as Hne
      by (rewrite Hblk; cbn [length]; lia).
    destruct (IH (tf_write tf (take (Z.to_nat (1024 * 1024)) file))
                (Some (take (Z.to_nat (1024 * 1024)) file))
                (drop (Z.to_nat (1024 * 1024)) file)) as (tf' & Hrun & Hclose).
    + rewrite length_drop. rewrite length_take in Hne. lia.
    + rewrite tf_close_write, len_app.
      rewrite <- (take_drop (Z.to_nat (1024 * 1024)) file), len_app in Hlen. lia.
    + exists tf'. split; [exact Hrun |].
      rewrite Hclose, tf_close_write, <- app_assoc, take_drop. reflexivity.
Qed.

(** With a buffer smaller than a block, the file reaches 50 MiB after
    [S k] full blocks of 1 MiB, and nothing is left in the buffer. *)
Lemma fill_loop_full (k : nat) fuel tf chunk file :
  buffer_size < 1024 * 1024 ->
  (length file < fuel)%nat ->
  Z.of_nat (S k) * (1024 * 1024) <= len file ->
  MAX_CHUNK_SIZE <= len (tf_close tf) + Z.of_nat (S k) * (1024 * 1024) ->
  len (tf_close tf) + Z.of_nat k * (1024 * 1024) < MAX_CHUNK_SIZE ->
  fill_loop fuel tf chunk file
  = Some (Writer (tf_close tf ++ take (Z.to_nat (Z.of_nat (S k) * (1024 * 1024))) file) [],
          Some (take (Z.to_nat (1024 * 1024))
                  (drop (Z.to_nat (Z.of_nat k * (1024 * 1024))) file)),
          drop (Z.to_nat (Z.of_nat (S k) * (1024 * 1024))) file).
Proof.
  intros Hbuf. revert fuel tf chunk file.
  induction k as [| k IH]; intros fuel tf chunk file Hfuel Hfile Hge Hlt.
  - destruct fuel as [| fuel]; [lia |]. rewrite fill_loop_unfold.
    pose proof (st_size_le_close tf) as Hsz.
    replace (st_size tf <? MAX_CHUNK_SIZE) with true by (symmetry; apply Z.ltb_lt; lia).
    replace (Z.of_nat 1 * (1024 * 1024)) with (1024 * 1024) in * by lia.
    replace (Z.of_nat 0 * (1024 * 1024)) with 0 in * by lia.
    change (Z.to_nat 0) with O. rewrite drop_0.
    assert (len (take (Z.to_nat (1024 * 1024)) file) = 1024 * 1024) as Hblk
      by (rewrite len_take; lia).
    destruct (take (Z.to_nat (1024 * 1024)) file) as [| c cs] eqn:Hb.
    { rewrite len_nil in Hblk. lia. }
    rewrite <- Hb in *.
    rewrite tf_write_through by lia.
    destruct fuel as [| fuel].
    { exfalso. unfold len in *. lia. }
    rewrite fill_loop_unfold. unfold st_size. cbn [on_disk].
    replace (len _ <? MAX_CHUNK_SIZE) with false; [reflexivity |].
    symmetry. apply Z.ltb_ge. rewrite len_app. lia.
  - destruct fuel as [| fuel]; [lia |]. rewrite fill_loop_unfold.
    pose proof (st_size_le_close tf) as Hsz.
    replace (st_size tf <? MAX_CHUNK_SIZE) with true by (symmetry; apply Z.ltb_lt; lia).
    assert (len (take (Z.to_nat (1024 * 1024)) file) = 1024 * 1024) as Hblk
      by (rewrite len_take; lia).
    destruct (take (Z.to_nat (1024 * 1024)) file) as [| c cs] eqn:Hb.
    { rewrite len_nil in Hblk. lia. }
    rewrite <- Hb in *.
    rewrite tf_write_through by lia.
    rewrite IH.
    + rewrite tf_close_flushed, <- app_assoc, take_take_drop, !drop_drop.
      repeat f_equal; lia.
    + rewrite length_drop. unfold len in *. lia.
    + rewrite len_drop by lia. lia.
    + rewrite tf_close_flushed, len_app. lia.
    + rewrite tf_close_flushed, len_app. lia.
Qed.

Lemma create_chunk_loop_unfold fuel chunk headers tail_part file :
  create_chunk_loop (S fuel) chunk headers tail_part file =
  match fill_loop (S (length file)) (tf_write (tf_write open_wb headers) tail_part)
          chunk file with
  | None => None
  | Some (tf, chunk, file) =>
    if truthy chunk then
      match find_line_end file with
      | None => None
      | Some (Raises e, _) => Some ([], Raised e)
      | Some (Returns (right_part, tail_part), file) =>
        match create_chunk_loop fuel chunk headers tail_part file with
        | None => None
        | Some (chunks, e) => Some ((tf_close tf ++ right_part) :: chunks, e)
        end
      end
    else Some ([tf_close tf], Finished)
  end.
Proof.
  cbn [create_chunk_loop].
  destruct (fill_loop _ _ _ _) as [[[tf c] f] |]; [| reflexivity].
  destruct (truthy c); [| reflexivity].
  destruct (find_line_end f) as [[[[l r] | e] f'] |]; [| reflexivity ..].
  rewrite tf_close_write. reflexivity.
Qed.

(** Last pass of the splitter: what is left fits, and is taken whole. *)
Lemma create_chunk_loop_last fuel chunk headers tail_part file :
  len (headers ++ tail_part) + len file < MAX_CHUNK_SIZE ->
  create_chunk_loop (S fuel) chunk headers tail_part file
  = Some ([(headers ++ tail_part) ++ file], Finished).
Proof.
  intros Hlen. rewrite create_chunk_loop_unfold.
  destruct (fill_loop_eof (S (length file))
              (tf_write (tf_write open_wb headers) tail_part) chunk file)
    as (tf' & Hrun & Hclose); [lia | by rewrite tf_close_initial |].
  rewrite Hrun. cbn [truthy]. rewrite Hclose, tf_close_initial. reflexivity.
Qed.

(** A pass that fills the file with [S k] blocks and then scans. *)
Lemma create_chunk_loop_pass (k : nat) fuel chunk headers tail_part file
    right_part tail_part' file' :
  buffer_size < 1024 * 1024 ->
  Z.of_nat (S k) * (1024 * 1024) <= len file ->
  MAX_CHUNK_SIZE <= len (headers ++ tail_part) + Z.of_nat (S k) * (1024 * 1024) ->
  len (headers ++ tail_part) + Z.of_nat k * (1024 * 1024) < MAX_CHUNK_SIZE ->
  find_line_end (drop (Z.to_nat (Z.of_nat (S k) * (1024 * 1024))) file)
  = Some (Returns (right_part, tail_part'), file') ->
  create_chunk_loop (S fuel) chunk headers tail_part file
  = match create_chunk_loop fuel
            (Some (take (Z.to_nat (1024 * 1024))
                     (drop (Z.to_nat (Z.of_nat k * (1024 * 1024))) file)))
            headers tail_part' file' with
    | None => None
    | Some (chunks, e) =>
      Some ((((headers ++ tail_part)
              ++ take (Z.to_nat (Z.of_nat (S k) * (1024 * 1024))) file)
             ++ right_part) :: chunks, e)
    end.
Proof.
  intros Hbuf Hfile Hge Hlt Hscan. rewrite create_chunk_loop_unfold.
  rewrite (fill_loop_full k) by (rewrite ?tf_close_initial; (lia || done)).
  assert (len (take (Z.to_nat (1024 * 1024))
                 (drop (Z.to_nat (Z.of_nat k * (1024 * 1024))) file)) = 1024 * 1024) as Hblk.
  { rewrite len_take, len_drop by lia. lia. }
  destruct (take (Z.to_nat (1024 * 1024)) _) as [| c cs] eqn:Hb.
  { rewrite len_nil in Hblk. lia. }
  cbn [truthy]. rewrite Hscan, tf_close_flushed, tf_close_initial. reflexivity.
Qed.
End WriterFacts.

Lemma len_rep n : 0 <= n -> len (rep n) = n.
Proof. intros Hn. unfold rep. rewrite len_replicate. lia. Qed.

Lemma take_rep m n : 0 <= m <= n -> take (Z.to_nat m) (rep n) = rep m.
Proof. intros H. unfold rep. rewrite take_replicate. f_equal. lia. Qed.

Lemma drop_rep m n : 0 <= m <= n -> drop (Z.to_nat m) (rep n) = rep (n - m).
Proof. intros H. unfold rep. rewrite drop_replicate. f_equal. lia. Qed.

Lemma rep_app m n : 0 <= m -> 0 <= n -> rep m ++ rep n = rep (m + n).
Proof.
  intros Hm Hn. unfold rep. rewrite <- replicate_add. f_equal. lia.
Qed.

Lemma NL_notin_rep n : NL ∉ rep n.
Proof.
  unfold rep. intros Hin. apply elem_of_replicate in Hin.
  destruct Hin as [Heq _]. discriminate.
Qed.

Lemma unterminated_tail_file_first_block :
  take (Z.to_nat 1024) unterminated_tail_file = [x68; NL] ++ rep 1022.
Proof.
  pose proof MAX_CHUNK_SIZE_eq as HM. unfold unterminated_tail_file.
  rewrite take_app, (take_ge [x68; NL]) by (cbn [length]; lia).
  replace (Z.to_nat 1024 - length [x68; NL])%nat with (Z.to_nat 1022)
    by (cbn [length]; lia).
  rewrite take_rep by lia. reflexivity.
Qed.

Lemma unterminated_tail_file_after_header :
  drop (Z.to_nat 1024) unterminated_tail_file = rep (MAX_CHUNK_SIZE + 2).
Proof.
  pose proof MAX_CHUNK_SIZE_eq as HM. unfold unterminated_tail_file.
  rewrite drop_app, (drop_ge [x68; NL]) by (cbn [length]; lia).
  replace (Z.to_nat 1024 - length [x68; NL])%nat with (Z.to_nat 1022)
    by (cbn [length]; lia).
  rewrite drop_rep by lia. rewrite app_nil_l. f_equal; lia.
Qed.

Lemma find_line_end_unterminated_tail_file :
  find_line_end unterminated_tail_file
  = Some (Returns ([x68], NL :: rep 1022), rep (MAX_CHUNK_SIZE + 2)).
Proof.
  rewrite (find_line_end_first_block _ 1).
  - rewrite unterminated_tail_file_first_block, unterminated_tail_file_after_header.
    reflexivity.
  - rewrite unterminated_tail_file_first_block. reflexivity.
Qed.

Section SplitterTraces.
Context {wb : WriteBuffer}.

(** Evaluation of the splitter on [unterminated_tail_file], with a write
    buffer smaller than the blocks of the fill loop. *)
Lemma create_chunk_unterminated_tail_file :
  buffer_size < 1024 * 1024 ->
  create_chunk unterminated_tail_file
  = Some ([[x68; NL] ++ rep (MAX_CHUNK_SIZE + 1022); [x68]], Finished).
Proof.
  intros Hbuf. pose proof MAX_CHUNK_SIZE_eq as HM.
  unfold create_chunk. rewrite find_line_end_unterminated_tail_file.
  replace (length unterminated_tail_file + 2)%nat
    with (S (S (length unterminated_tail_file))) by lia.
  assert (Hlen0 : len ([x68] ++ NL :: rep 1022) = 1024).
  { change ([x68] ++ NL :: rep 1022) with ([x68; NL] ++ rep 1022).
    rewrite len_app, len_rep by lia. reflexivity. }
  rewrite (create_chunk_loop_pass 49 _ _ _ _ _ [] [] [] Hbuf).
  - rewrite create_chunk_loop_last.
    2:{ rewrite app_nil_r. change (len [x68]) with 1. rewrite len_nil. lia. }
    replace (Z.of_nat 50 * (1024 * 1024)) with MAX_CHUNK_SIZE by lia.
    rewrite take_rep by lia. rewrite !app_nil_r.
    change ([x68] ++ NL :: rep 1022) with ([x68; NL] ++ rep 1022).
    rewrite <- app_assoc, rep_app by lia.
    replace (1022 + MAX_CHUNK_SIZE) with (MAX_CHUNK_SIZE + 1022) by lia.
    reflexivity.
  - rewrite len_rep by lia. lia.
  - rewrite Hlen0. lia.
  - rewrite Hlen0. lia.
  - replace (Z.of_nat 50 * (1024 * 1024)) with MAX_CHUNK_SIZE by lia.
    rewrite drop_rep by lia.
    replace (MAX_CHUNK_SIZE + 2 - MAX_CHUNK_SIZE) with 2 by lia.
    change (rep 2) with [x61; x61]. vm_compute. reflexivity.
Qed.

Lemma find_from_take i sub (n : nat) (b : bytes) :
  sub ∈ take n b -> find_from i sub b = find_from i sub (take n b).
Proof.
  revert i n. induction b as [| x b IH]; intros i n Hin.
  - by rewrite take_nil.
  - destruct n as [| n]; [by apply elem_of_nil in Hin |].
    cbn [take find_from] in *. destruct (decide (x = sub)) as [-> | Hne].
    + by rewrite !bool_decide_eq_true_2.
    + rewrite !bool_decide_eq_false_2 by done. apply IH.
      apply elem_of_cons in Hin. by destruct Hin as [-> | Hin].
Qed.

(** What a window with a terminator gives the scanner. *)
Lemma short_records_window (file : bytes) (i : Z) :
  short_records file -> 0 <= i -> i + 1024 <= len file ->
  ∃ (p : nat) (t : bytes),
    bytes_find NL (take (Z.to_nat 1024) (drop (Z.to_nat i) file)) = Z.of_nat p
    ∧ 0 <= Z.of_nat p < 1024
    ∧ drop p (take (Z.to_nat 1024) (drop (Z.to_nat i) file)) = NL :: t
    ∧ len (NL :: t) = 1024 - Z.of_nat p
    ∧ len (take p (drop (Z.to_nat i) file)) = Z.of_nat p.
Proof.
  intros Hshort Hi Hlen.
  destruct (bytes_find_in _ _ (Hshort i Hi Hlen)) as (p & Hp & Hlt & _ & Hdrop).
  unfold Nat.lt in Hlt.
  assert (Hblk : len (take (Z.to_nat 1024) (drop (Z.to_nat i) file)) = 1024).
  { rewrite len_take, len_drop by lia. lia. }
  exists p, (drop (S p) (take (Z.to_nat 1024) (drop (Z.to_nat i) file))).
  split; [done |]. unfold len in Hblk. split; [lia |]. split; [done |].
  split.
  - rewrite <- Hdrop. unfold len. rewrite length_drop. lia.
  - unfold len. rewrite length_take, length_drop.
    unfold len in Hlen. rewrite length_take, length_drop in Hlt. lia.
Qed.

Lemma take_S_of_drop {A} (l : list A) (p : nat) (x : A) (t : list A) :
  drop p l = x :: t -> take (S p) l = take p l ++ [x].
Proof.
  intros Hd. apply take_S_r.
  rewrite <- (Nat.add_0_r p), <- lookup_drop, Hd. reflexivity.
Qed.

Lemma take_drop_window {A} (l : list A) (p n : nat) :
  (p <= n)%nat -> take p l ++ drop p (take n l) = take n l.
Proof.
  intros Hle. rewrite <- (take_drop p (take n l)) at 2.
  rewrite take_take. by replace (p `min` n)%nat with p by lia.
Qed.

Lemma header_line_split (file : bytes) (p : nat) (t : bytes) :
  bytes_find NL (take (Z.to_nat 1024) file) = Z.of_nat p ->
  drop p (take (Z.to_nat 1024) file) = NL :: t ->
  bytes_find NL file = Z.of_nat p ∧ header_line file = take p file ++ [NL].
Proof.
  intros Hp Hd.
  assert (NL ∈ take (Z.to_nat 1024) file) as Hin.
  { apply dec_stable. intros Hni. apply bytes_find_notin in Hni. lia. }
  assert (bytes_find NL file = Z.of_nat p) as Hfind.
  { unfold bytes_find in *. by rewrite (find_from_take 0 NL (Z.to_nat 1024)). }
  split; [done |]. unfold header_line, slice_to. rewrite Hfind.
  replace (Z.to_nat (Z.of_nat p + 1)) with (S p) by lia.
  destruct (bytes_find_in _ _ Hin) as (k & Hk & Hlt & _).
  unfold Nat.lt in Hlt. rewrite length_take in Hlt.
  assert (k = p) as -> by lia.
  apply (take_S_of_drop _ _ _ (drop (S p) file)).
  rewrite <- (take_drop (Z.to_nat 1024) file) at 1.
  rewrite drop_app_le by (rewrite length_take; lia).
  rewrite Hd. cbn [app]. f_equal.
  rewrite <- (take_drop (Z.to_nat 1024) file) at 2.
  rewrite drop_app_le by (rewrite length_take; lia).
  f_equal. apply (f_equal (drop 1)) in Hd. rewrite drop_drop in Hd.
  cbn [drop] in Hd. rewrite drop_0 in Hd. by replace (S p) with (p + 1)%nat by lia.
Qed.

Lemma drop_drop_Z {A} (a b : Z) (l : list A) :
  0 <= a -> 0 <= b ->
  drop (Z.to_nat b) (drop (Z.to_nat a) l) = drop (Z.to_nat (a + b)) l.
Proof. intros Ha Hb. rewrite drop_drop. f_equal; lia. Qed.

Lemma take_drop_Z {A} (a b : Z) (l : list A) :
  0 <= a -> 0 <= b ->
  take (Z.to_nat b) (drop (Z.to_nat a) l) ++ drop (Z.to_nat (a + b)) l
  = drop (Z.to_nat a) l.
Proof. intros Ha Hb. rewrite <- drop_drop_Z by lia. apply take_drop. Qed.

(** Trace of the splitter on a 120 MiB stream of short records. *)
Lemma create_chunk_120MiB_trace (s : bytes) :
  buffer_size < 1024 * 1024 ->
  len s = 120 * 1024 ^ 2 -> short_records s ->
  ∃ (p0 p1 p2 : nat) (t0 t1 t2 : bytes),
    0 <= Z.of_nat p0 < 1024 ∧ 0 <= Z.of_nat p1 < 1024 ∧ 0 <= Z.of_nat p2 < 1024
    ∧ header_line s = take p0 s ++ [NL]
    ∧ slice_to (bytes_find NL s) s = take p0 s
    ∧ len (take p0 s) = Z.of_nat p0
    ∧ len (take p1 (drop (Z.to_nat 52429824) s)) = Z.of_nat p1
    ∧ len (take p2 (drop (Z.to_nat 104859648) s)) = Z.of_nat p2
    ∧ len (NL :: t0) = 1024 - Z.of_nat p0
    ∧ len (NL :: t1) = 1024 - Z.of_nat p1
    ∧ len (NL :: t2) = 1024 - Z.of_nat p2
    ∧ take p0 s ++ NL :: t0 = take (Z.to_nat 1024) s
    ∧ take p1 (drop (Z.to_nat 52429824) s) ++ NL :: t1
      = take (Z.to_nat 1024) (drop (Z.to_nat 52429824) s)
    ∧ take p2 (drop (Z.to_nat 104859648) s) ++ NL :: t2
      = take (Z.to_nat 1024) (drop (Z.to_nat 104859648) s)
    ∧ create_chunk s
      = Some ([(((take p0 s ++ NL :: t0)
                 ++ take (Z.to_nat (Z.of_nat 50 * (1024 * 1024))) (drop (Z.to_nat 1024) s))
                ++ take p1 (drop (Z.to_nat 52429824) s));
               (((take p0 s ++ NL :: t1)
                 ++ take (Z.to_nat (Z.of_nat 50 * (1024 * 1024))) (drop (Z.to_nat 52430848) s))
                ++ take p2 (drop (Z.to_nat 104859648) s));
               ((take p0 s ++ NL :: t2) ++ drop (Z.to_nat 104860672) s)],
              Finished).
Proof.
  intros Hbuf Hlen Hshort. pose proof MAX_CHUNK_SIZE_eq as HM.
  assert (Hlen' : len s = 125829120) by (rewrite Hlen; reflexivity). clear Hlen.
  destruct (short_records_window s 0 Hshort) as (p0 & t0 & Hp0 & Hr0 & Hd0 & Hl0 & Hk0);
    [lia | lia |].
  change (Z.to_nat 0) with O in *. rewrite drop_0 in *.
  destruct (short_records_window s 52429824 Hshort)
    as (p1 & t1 & Hp1 & Hr1 & Hd1 & Hl1 & Hk1); [lia | lia |].
  destruct (short_records_window s 104859648 Hshort)
    as (p2 & t2 & Hp2 & Hr2 & Hd2 & Hl2 & Hk2); [lia | lia |].
  destruct (header_line_split s p0 t0 Hp0 Hd0) as [Hfind Hhl].
  assert (H50 : Z.of_nat 50 * (1024 * 1024) = 52428800) by reflexivity.
  assert (HF2 : drop (Z.to_nat (Z.of_nat 50 * (1024 * 1024))) (drop (Z.to_nat 1024) s)
                = drop (Z.to_nat 52429824) s).
  { rewrite H50, drop_drop_Z by lia. reflexivity. }
  assert (HF3 : drop (Z.to_nat 1024) (drop (Z.to_nat 52429824) s)
                = drop (Z.to_nat 52430848) s).
  { rewrite drop_drop_Z by lia. reflexivity. }
  assert (HF4 : drop (Z.to_nat (Z.of_nat 50 * (1024 * 1024))) (drop (Z.to_nat 52430848) s)
                = drop (Z.to_nat 104859648) s).
  { rewrite H50, drop_drop_Z by lia. reflexivity. }
  assert (HF5 : drop (Z.to_nat 1024) (drop (Z.to_nat 104859648) s)
                = drop (Z.to_nat 104860672) s).
  { rewrite drop_drop_Z by lia. reflexivity. }
  exists p0, p1, p2, t0, t1, t2.
  do 3 (split; [lia |]). split; [done |].
  split; [unfold slice_to; rewrite Hfind; by rewrite Nat2Z.id |].
  do 6 (split; [done |]).
  split; [rewrite <- Hd0; apply take_drop_window; lia |].
  split; [rewrite <- Hd1; apply take_drop_window; lia |].
  split; [rewrite <- Hd2; apply take_drop_window; lia |].
  unfold create_chunk. rewrite (find_line_end_first_block s p0 Hp0), Hd0.
  replace (length s + 2)%nat with (S (S (S (length s - 1))))
    by (unfold len in Hlen'; lia).
  rewrite (create_chunk_loop_pass 49 _ _ _ _ _
             (take p1 (drop (Z.to_nat 52429824) s)) (NL :: t1)
             (drop (Z.to_nat 52430848) s) Hbuf).
  2:{ rewrite len_drop by lia. lia. }
  2:{ rewrite len_app. lia. }
  2:{ rewrite len_app. lia. }
  2:{ rewrite HF2, (find_line_end_first_block _ p1 Hp1), Hd1, HF3. reflexivity. }
  rewrite (create_chunk_loop_pass 49 _ _ _ _ _
             (take p2 (drop (Z.to_nat 104859648) s)) (NL :: t2)
             (drop (Z.to_nat 104860672) s) Hbuf).
  2:{ rewrite len_drop by lia. lia. }
  2:{ rewrite len_app. lia. }
  2:{ rewrite len_app. lia. }
  2:{ rewrite HF4, (find_line_end_first_block _ p2 Hp2), Hd2, HF5. reflexivity. }
  rewrite create_chunk_loop_last.
  2:{ rewrite len_app, len_drop by lia. lia. }
  reflexivity.
Qed.

Lemma len_blank_lines_120MiB : len blank_lines_120MiB = 120 * 1024 ^ 2.
Proof.
  unfold blank_lines_120MiB, len. cbn [length]. rewrite length_replicate.
  change (120 * 1024 ^ 2) with 125829120. lia.
Qed.

Lemma lookup_cons_succ {A} (x : A) (l : list A) (i : nat) : (x :: l) !! S i = l !! i.
Proof. reflexivity. Qed.

Lemma short_records_blank_lines_120MiB : short_records blank_lines_120MiB.
Proof.
  intros i Hi Hlen. rewrite len_blank_lines_120MiB in Hlen.
  change (120 * 1024 ^ 2) with 125829120 in Hlen.
  apply elem_of_take. exists 1%nat. split; [| lia].
  rewrite lookup_drop. unfold blank_lines_120MiB.
  replace (Z.to_nat i + 1)%nat with (S (Z.to_nat i)) by lia.
  rewrite lookup_cons_succ. apply lookup_replicate_2.
  change (120 * 1024 ^ 2) with 125829120. lia.
Qed.

(** C2, the defect: on [unterminated_tail_file] the scan that follows the
    first fill reaches the end of the stream without a terminator and
    returns the pair of empty byte strings, so the two bytes it had read are
    written nowhere:
    the first chunk stops inside the record, the second is the bare header,
    and the chunks put back together are two bytes short of the source.
    This is so with every write buffer smaller than the 1 MiB blocks of the
    fill loop, the usual 4 KiB and 8 KiB among them. *)
Theorem create_chunk_loses_unterminated_tail :
  buffer_size < 1024 * 1024 ->
  ∃ c1 c2 : bytes,
    create_chunk unterminated_tail_file = Some ([c1; c2], Finished)
    ∧ c1 ++ rep 2 = unterminated_tail_file
    ∧ c2 = [x68]
    ∧ reassemble [x68] [c1; c2] = c1
    ∧ reassemble [x68] [c1; c2] ≠ unterminated_tail_file.
Proof.
  intros Hbuf. pose proof MAX_CHUNK_SIZE_eq as HM.
  exists ([x68; NL] ++ rep (MAX_CHUNK_SIZE + 1022)), [x68].
  split; [exact (create_chunk_unterminated_tail_file Hbuf) |].
  assert (Hre : reassemble [x68] [[x68; NL] ++ rep (MAX_CHUNK_SIZE + 1022); [x68]]
                = [x68; NL] ++ rep (MAX_CHUNK_SIZE + 1022)).
  { unfold reassemble. cbn [map concat]. unfold chunk_body.
    rewrite drop_ge by (cbn [length]; lia). rewrite !app_nil_r. reflexivity. }
  split; [| split; [reflexivity | split; [exact Hre |]]].
  - unfold unterminated_tail_file. rewrite <- app_assoc, rep_app by lia.
    replace (MAX_CHUNK_SIZE + 1022 + 2) with (MAX_CHUNK_SIZE + 1024) by lia.
    reflexivity.
  - rewrite Hre. intros Heq. apply (f_equal len) in Heq.
    unfold unterminated_tail_file in Heq.
    rewrite !len_app, !len_rep in Heq by lia. lia.
Qed.

(** C7, as the code has it: a 120 MiB stream whose records are at most
    1 KiB long is split into exactly three chunks, each starting with the
    header line. The first two are larger than 50 MiB, by less than 3 KiB:
    the fill loop stops once the file has reached 50 MiB, and the bytes up
    to the next terminator are added after that. The third is under 20 MiB.
    This is so with every write buffer smaller than the 1 MiB blocks of the
    fill loop. *)
Theorem create_chunk_120MiB (s : bytes) :
  buffer_size < 1024 * 1024 ->
  len s = 120 * 1024 ^ 2 -> short_records s ->
  ∃ c1 c2 c3 : bytes,
    create_chunk s = Some ([c1; c2; c3], Finished)
    ∧ Forall (λ c, header_line s `prefix_of` c) [c1; c2; c3]
    ∧ MAX_CHUNK_SIZE + 1024 <= len c1 < MAX_CHUNK_SIZE + 2 * 1024
    ∧ MAX_CHUNK_SIZE < len c2 < MAX_CHUNK_SIZE + 3 * 1024
    ∧ len c3 < 20 * 1024 ^ 2.
Proof.
  intros Hbuf Hlen Hshort. pose proof MAX_CHUNK_SIZE_eq as HM.
  destruct (create_chunk_120MiB_trace s Hbuf Hlen Hshort)
    as (p0 & p1 & p2 & t0 & t1 & t2 & Hp0 & Hp1 & Hp2 & Hhl & _ & Hk0 & Hk1 & Hk2
        & Hl0 & Hl1 & Hl2 & _ & _ & _ & Htrace).
  assert (Hlen' : len s = 125829120) by (rewrite Hlen; reflexivity).
  eexists _, _, _. split; [exact Htrace |].
  split.
  { rewrite Hhl.
    assert (Hpre : ∀ t, (take p0 s ++ [NL]) `prefix_of` (take p0 s ++ NL :: t)).
    { intros t. apply prefix_app, prefix_cons, prefix_nil. }
    repeat apply Forall_cons_2; [| | | apply Forall_nil_2].
    - do 2 apply prefix_app_r. apply Hpre.
    - do 2 apply prefix_app_r. apply Hpre.
    - apply prefix_app_r. apply Hpre. }
  change (20 * 1024 ^ 2) with 20971520.
  repeat split.
  - rewrite !len_app, len_take, len_drop by lia. lia.
  - rewrite !len_app, len_take, len_drop by lia. lia.
  - rewrite !len_app, len_take, len_drop by lia. lia.
  - rewrite !len_app, len_take, len_drop by lia. lia.
  - rewrite !len_app, len_drop by lia. lia.
Qed.

(** On such a stream nothing is lost: the chunks put back together, the
    repeated header bytes left out, are the source. *)
Lemma create_chunk_120MiB_reassembles (s : bytes) :
  buffer_size < 1024 * 1024 ->
  len s = 120 * 1024 ^ 2 -> short_records s ->
  ∃ chunks, create_chunk s = Some (chunks, Finished)
            ∧ reassemble (slice_to (bytes_find NL s) s) chunks = s.
Proof.
  intros Hbuf Hlen Hshort. pose proof MAX_CHUNK_SIZE_eq as HM.
  destruct (create_chunk_120MiB_trace s Hbuf Hlen Hshort)
    as (p0 & p1 & p2 & t0 & t1 & t2 & Hp0 & Hp1 & Hp2 & _ & Hh & Hk0 & Hk1 & Hk2
        & Hl0 & Hl1 & Hl2 & He0 & He1 & He2 & Htrace).
  eexists. split; [exact Htrace |]. rewrite Hh.
  unfold reassemble, chunk_body. cbn [map concat].
  rewrite <- !(app_assoc (take p0 s)), !drop_app_length, app_nil_r.
  rewrite !app_assoc, He0. rewrite <- !app_assoc.
  rewrite (app_assoc (take p1 _)), He1, (app_assoc (take p2 _)), He2.
  replace (Z.of_nat 50 * (1024 * 1024)) with 52428800 by reflexivity.
  change 104860672 with (104859648 + 1024). rewrite take_drop_Z by lia.
  change 104859648 with (52430848 + 52428800). rewrite take_drop_Z by lia.
  change 52430848 with (52429824 + 1024). rewrite take_drop_Z by lia.
  change 52429824 with (1024 + 52428800). rewrite take_drop_Z by lia.
  apply take_drop.
Qed.
End SplitterTraces.

Lemma DEFAULT_BUFFER_SIZE_lt_block :
  buffer_size (WriteBuffer := DEFAULT_BUFFER_SIZE) < 1024 * 1024.
Proof. reflexivity. Qed.

Lemma create_chunk_loses_unterminated_tail_witness :
  buffer_size (WriteBuffer := DEFAULT_BUFFER_SIZE) < 1024 * 1024
  ∧ ∃ c1 c2 : bytes,
      create_chunk (wb := DEFAULT_BUFFER_SIZE) unterminated_tail_file
      = Some ([c1; c2], Finished)
      ∧ c1 ++ rep 2 = unterminated_tail_file
      ∧ c2 = [x68]
      ∧ reassemble [x68] [c1; c2] = c1
      ∧ reassemble [x68] [c1; c2] ≠ unterminated_tail_file.
Proof.
  split; [reflexivity |].
  apply (create_chunk_loses_unterminated_tail (wb := DEFAULT_BUFFER_SIZE)).
  reflexivity.
Defined.

(** C7, counterexample: the 120 MiB stream of a header and empty lines is
    split into three chunks, and the first has 50 MiB + 1 KiB or more. *)
Lemma blank_lines_120MiB_chunk_over_50MiB :
  len blank_lines_120MiB = 120 * 1024 ^ 2
  ∧ ¬ three_bounded_chunks (wb := DEFAULT_BUFFER_SIZE) blank_lines_120MiB.
Proof.
  pose proof MAX_CHUNK_SIZE_eq as HM.
  split; [apply len_blank_lines_120MiB |].
  intros (c1 & c2 & c3 & Hrun & Hall).
  destruct (create_chunk_120MiB_trace (wb := DEFAULT_BUFFER_SIZE) _
              DEFAULT_BUFFER_SIZE_lt_block len_blank_lines_120MiB
              short_records_blank_lines_120MiB)
    as (p0 & p1 & p2 & t0 & t1 & t2 & Hp0 & Hp1 & Hp2 & _ & _ & Hk0 & Hk1 & Hk2
        & Hl0 & Hl1 & Hl2 & _ & _ & _ & Htrace).
  apply Forall_cons_1 in Hall. destruct Hall as [[_ Hsize] _].
  rewrite Htrace in Hrun.
  apply (f_equal (λ r, match r with Some (c :: _, _) => len c | _ => 0 end)) in Hrun.
  cbv beta iota in Hrun. rewrite <- Hrun in Hsize.
  rewrite !len_app, len_take, len_drop in Hsize by lia.
  rewrite len_blank_lines_120MiB in Hsize.
  change (120 * 1024 ^ 2) with 125829120 in Hsize. lia.
Qed.

Lemma create_chunk_120MiB_witness :
  ∃ c1 c2 c3 : bytes,
    create_chunk (wb := DEFAULT_BUFFER_SIZE) blank_lines_120MiB
    = Some ([c1; c2; c3], Finished)
    ∧ Forall (λ c, header_line blank_lines_120MiB `prefix_of` c) [c1; c2; c3]
    ∧ MAX_CHUNK_SIZE + 1024 <= len c1 < MAX_CHUNK_SIZE + 2 * 1024
    ∧ MAX_CHUNK_SIZE < len c2 < MAX_CHUNK_SIZE + 3 * 1024
    ∧ len c3 < 20 * 1024 ^ 2.
Proof.
  apply (create_chunk_120MiB (wb := DEFAULT_BUFFER_SIZE) blank_lines_120MiB).
  - reflexivity.
  - apply len_blank_lines_120MiB.
  - apply short_records_blank_lines_120MiB.
Defined.

(** ** Dicts built by a loop of insertions *)

Section InsertFolds.
Context {V : Type}.
Implicit Types (l : list (string * V)) (d : gmap string V).

Lemma fold_insert_notin l d name :
  name ∉ l.*1 -> foldl (λ d c, <[c.1 := c.2]> d) d l !! name = d !! name.
Proof.
  revert d. induction l as [| [n v] l IH]; intros d Hni; [done |].
  cbn [foldl fmap list_fmap fst] in *. apply not_elem_of_cons in Hni.
  destruct Hni as [Hne Hni]. rewrite IH by done. cbn. by rewrite lookup_insert_ne.
Qed.

(** The last entry under a name is the one that stays. *)
Lemma fold_insert_last l d (i : nat) name v :
  l !! i = Some (name, v) ->
  (∀ (j : nat) v', (i < j)%nat -> l !! j ≠ Some (name, v')) ->
  foldl (λ d c, <[c.1 := c.2]> d) d l !! name = Some v.
Proof.
  revert d i. induction l as [| [n0 v0] l IH]; intros d i Hi Hlast; [done |].
  cbn [foldl]. destruct i as [| i].
  - injection Hi as -> ->. rewrite fold_insert_notin.
    + cbn. by rewrite lookup_insert_eq.
    + intros Hin. apply list_elem_of_fmap in Hin. destruct Hin as ([n v'] & Hn & Hin).
      cbn in Hn. subst n. apply list_elem_of_lookup_1 in Hin. destruct Hin as [j Hj].
      apply (Hlast (S j) v'); [lia | done].
  - eapply (IH _ i); [done |]. intros j v' Hlt. apply (Hlast (S j) v'). lia.
Qed.

(** What is found under a name was put there by the loop, or was there. *)
Lemma fold_insert_elem l d name v :
  foldl (λ d c, <[c.1 := c.2]> d) d l !! name = Some v ->
  (name, v) ∈ l ∨ d !! name = Some v.
Proof.
  revert d. induction l as [| [n0 v0] l IH]; intros d Hv; [by right |].
  cbn [foldl] in Hv. apply IH in Hv. destruct Hv as [Hin | Hv].
  - left. apply elem_of_cons. by right.
  - cbn [fst snd] in Hv. rewrite lookup_insert in Hv. case_decide as Heq.
    + injection Hv as <-. subst n0. left. apply elem_of_cons. by left.
    + by right.
Qed.

Lemma fold_insert_dom l d :
  dom (foldl (λ d c, <[c.1 := c.2]> d) d l) = dom d ∪ list_to_set l.*1.
Proof.
  revert d. induction l as [| [n v] l IH]; intros d.
  - cbn. by rewrite (right_id_L ∅ (∪)).
  - cbn [foldl fmap list_fmap list_to_set fst]. rewrite IH. cbn [fst snd].
    rewrite dom_insert_L.
    by rewrite (comm_L (∪) {[n]} (dom d)), <- (assoc_L (∪)).
Qed.
End InsertFolds.

(** ** The record streamer *)

Section StreamerFacts.
Context {Value : Type}.
Implicit Types (batch : Batch Value) (cols : list (list Value)).

(** No [KeyError]: the dict is built from the very names it is asked for. *)
Lemma columns_of_to_pydict batch :
  ∃ cols, columns_of (to_pydict batch) batch.*1 = Returns cols
          ∧ length cols = length batch.
Proof.
  assert (∀ names : list string,
            (∀ name, name ∈ names -> name ∈ batch.*1) ->
            ∃ cols, columns_of (to_pydict batch) names = Returns cols
                    ∧ length cols = length names) as Hgen.
  { induction names as [| name names IH]; intros Hsub.
    - by exists [].
    - destruct IH as (cols & Hcols & Hlen).
      { intros n Hn. apply Hsub. apply elem_of_cons. by right. }
      assert (name ∈ dom (to_pydict batch)) as Hdom.
      { unfold to_pydict. rewrite fold_insert_dom, elem_of_union, elem_of_list_to_set.
        right. apply Hsub. apply elem_of_cons. by left. }
      apply elem_of_dom in Hdom. destruct Hdom as [col Hcol].
      exists (col :: cols). cbn [columns_of]. rewrite Hcol, Hcols.
      split; [done | cbn; by rewrite Hlen]. }
  destruct (Hgen batch.*1) as (cols & Hcols & Hlen); [done |].
  exists cols. split; [done |]. by rewrite Hlen, length_fmap.
Qed.

(** The list comprehension looks every name up in the dict. *)
Lemma columns_of_lookup (d : gmap string (list Value)) (names : list string) cols :
  columns_of d names = Returns cols ->
  Forall2 (λ name col, d !! name = Some col) names cols.
Proof.
  revert cols. induction names as [| name names IH]; intros cols Hcols.
  - injection Hcols as <-. constructor.
  - cbn [columns_of] in Hcols. destruct (d !! name) as [col |] eqn:Hcol; [| discriminate].
    destruct (columns_of d names) as [cols' | e]; [| discriminate].
    injection Hcols as <-. constructor; [done | by apply IH].
Qed.

Lemma heads_full cols (n : nat) :
  Forall (λ c, length c = S n) cols ->
  ∃ row, heads cols = Some row ∧ Forall2 (λ c v, c !! 0%nat = Some v) cols row.
Proof.
  induction cols as [| c cols IH]; intros Hall.
  - exists []. split; [done | constructor].
  - apply Forall_cons_1 in Hall. destruct Hall as [Hc Hall].
    destruct (IH Hall) as (row & Hrow & Hf2).
    destruct c as [| x c]; [discriminate |].
    exists (x :: row). cbn [heads]. rewrite Hrow. split; [done |].
    by constructor.
Qed.

(** [zip] over columns of one length [n] gives the [n] rows, in order:
    row [i] holds the [i]-th value of each column, in column order. *)
Lemma zip_loop_rows (n : nat) cols :
  Forall (λ c, length c = n) cols ->
  length (zip_loop n cols) = n
  ∧ ∀ (i : nat) row, zip_loop n cols !! i = Some row ->
                     Forall2 (λ c v, c !! i = Some v) cols row.
Proof.
  revert cols. induction n as [| n IH]; intros cols Hall.
  - split; [done |]. intros i row Hi. cbn [zip_loop] in Hi.
    by rewrite lookup_nil in Hi.
  - destruct (heads_full cols n Hall) as (row0 & Hrow0 & Hf0).
    cbn [zip_loop]. rewrite Hrow0.
    assert (Forall (λ c, length c = n) (tail <$> cols)) as Htl.
    { apply Forall_fmap. eapply Forall_impl; [exact Hall |].
      intros c Hc. cbn. destruct c; [discriminate |]. cbn in *. lia. }
    destruct (IH _ Htl) as [Hlen Hrows]. split; [cbn; by rewrite Hlen |].
    intros [| i] row Hi.
    + injection Hi as <-. done.
    + cbn in Hi. apply Hrows in Hi. apply Forall2_fmap_l in Hi.
      eapply Forall2_impl; [exact Hi |]. intros c v Hcv. cbn in Hcv.
      by rewrite lookup_tail in Hcv.
Qed.

Lemma heads_length cols row : heads cols = Some row -> length row = length cols.
Proof.
  revert row. induction cols as [| c cols IH]; intros row Hrow.
  - by injection Hrow as <-.
  - destruct c as [| x c]; [discriminate |]. cbn [heads] in Hrow.
    destruct (heads cols) as [row' |]; [| discriminate].
    injection Hrow as <-. cbn. by rewrite (IH row').
Qed.

(** Every tuple of [zip] has one item per column. *)
Lemma zip_loop_widths (n : nat) cols :
  Forall (λ row, length row = length cols) (zip_loop n cols).
Proof.
  revert cols. induction n as [| n IH]; intros cols; [constructor |].
  cbn [zip_loop]. destruct (heads cols) as [row |] eqn:Hrow; [| constructor].
  constructor; [by apply heads_length |].
  specialize (IH (tail <$> cols)). by rewrite length_fmap in IH.
Qed.

(** The dict comprehension: under a name, the value at the last index
    that has this name. *)
Lemma dict_of_indices_last (names : list string) (vals : list Value) (n k : nat)
    (d : record Value) :
  (k + n <= length names)%nat -> (k + n <= length vals)%nat ->
  ∃ r, dict_of_indices names vals (seq k n) d = Returns r
       ∧ (∀ (j : nat) c v, (k <= j < k + n)%nat -> names !! j = Some c ->
            vals !! j = Some v ->
            (∀ j' : nat, (j < j' < k + n)%nat -> names !! j' ≠ Some c) ->
            r !! c = Some v)
       ∧ (∀ c, (∀ j : nat, (k <= j < k + n)%nat -> names !! j ≠ Some c) ->
               r !! c = d !! c).
Proof.
  revert k d. induction n as [| n IH]; intros k d Hn Hv.
  - exists d. split; [done |]. split; [intros; lia | done].
  - cbn [seq dict_of_indices].
    destruct (lookup_lt_is_Some_2 names k) as [c Hc]; [lia |].
    destruct (lookup_lt_is_Some_2 vals k) as [v Hv']; [lia |].
    rewrite Hc, Hv'.
    destruct (IH (S k) (<[c := v]> d)) as (r & Hr & Hin & Hout); [lia | lia |].
    exists r. split; [done |]. split.
    + intros j c' v' Hj Hc' Hv'' Hlast. destruct (decide (j = k)) as [-> | Hne].
      * rewrite Hc in Hc'. rewrite Hv' in Hv''. injection Hc' as <-.
        injection Hv'' as <-. rewrite Hout; [by rewrite lookup_insert_eq |].
        intros j Hj'. apply Hlast. lia.
      * eapply Hin; [| done | done |]; [lia |]. intros j' Hj'. apply Hlast. lia.
    + intros c' Hc'. rewrite Hout.
      * rewrite lookup_insert_ne; [done |]. intros ->. by apply (Hc' k); [lia |].
      * intros j Hj. apply Hc'. lia.
Qed.

(** No [IndexError]: with one value per name the comprehension returns,
    and the keys of the record are the names. *)
Lemma dict_of_indices_total (names : list string) (vals : list Value) (n k : nat)
    (d : record Value) :
  (k + n <= length names)%nat -> (k + n <= length vals)%nat ->
  ∃ r, dict_of_indices names vals (seq k n) d = Returns r
       ∧ dom r = dom d ∪ list_to_set (take n (drop k names)).
Proof.
  revert k d. induction n as [| n IH]; intros k d Hn Hv.
  - exists d. split; [done |]. rewrite take_0, list_to_set_nil.
    by rewrite (right_id_L ∅ (∪)).
  - cbn [seq dict_of_indices].
    destruct (lookup_lt_is_Some_2 names k) as [c Hc]; [lia |].
    destruct (lookup_lt_is_Some_2 vals k) as [v Hv']; [lia |].
    rewrite Hc, Hv'.
    destruct (IH (S k) (<[c := v]> d)) as (r & Hr & Hdom); [lia | lia |].
    exists r. split; [done |]. rewrite Hdom, dom_insert_L.
    rewrite (drop_S _ _ _ Hc). cbn [take list_to_set].
    by rewrite (comm_L (∪) {[c]} (dom d)), <- (assoc_L (∪)).
Qed.

Lemma make_record_last (names : list string) (vals : list Value) :
  length vals = length names ->
  ∃ r, make_record names vals = Returns r
       ∧ dom r = list_to_set names
       ∧ ∀ (j : nat) c v, names !! j = Some c -> vals !! j = Some v ->
           (∀ j' : nat, (j < j')%nat -> names !! j' ≠ Some c) -> r !! c = Some v.
Proof.
  intros Hlen. unfold make_record.
  destruct (dict_of_indices_last names vals (length names) 0 ∅)
    as (r & Hr & Hin & _); [lia | lia |].
  destruct (dict_of_indices_total names vals (length names) 0 ∅)
    as (r' & Hr' & Hdom); [lia | lia |].
  rewrite Hr in Hr'. injection Hr' as <-.
  exists r. split; [done |]. split.
  - by rewrite Hdom, dom_empty_L, (left_id_L ∅ (∪)), drop_0, take_ge.
  - intros j c v Hc Hv Hlast. eapply Hin; [| done | done |].
    + apply lookup_lt_Some in Hc. lia.
    + intros j' Hj'. apply Hlast. lia.
Qed.

Lemma yield_records_all (names : list string) (rows : list (list Value)) :
  Forall (λ row, length row = length names) rows ->
  ∃ rs, yield_records names rows = (rs, Finished)
        ∧ Forall2 (λ row (r : record Value),
                     dom r = list_to_set names
                     ∧ ∀ (j : nat) c v, names !! j = Some c -> row !! j = Some v ->
                         (∀ j' : nat, (j < j')%nat -> names !! j' ≠ Some c) ->
                         r !! c = Some v) rows rs.
Proof.
  induction rows as [| row rows IH]; intros Hall.
  - exists []. split; [done | constructor].
  - apply Forall_cons_1 in Hall. destruct Hall as [Hrow Hall].
    destruct (IH Hall) as (rs & Hrs & Hf2).
    destruct (make_record_last names row Hrow) as (r & Hr & Hdom & Hval).
    exists (r :: rs). cbn [yield_records]. rewrite Hr, Hrs. split; [done |].
    by constructor.
Qed.

(** The loop body never raises, whatever the batch. *)
Lemma yield_batch_total batch :
  ∃ rows, yield_batch batch = (rows, Finished)
          ∧ Forall (λ r : record Value, dom r = list_to_set batch.*1) rows.
Proof.
  unfold yield_batch.
  destruct (columns_of_to_pydict batch) as (cols & Hcols & Hlen). rewrite Hcols.
  destruct (yield_records_all batch.*1 (zip_star cols)) as (rs & Hrs & Hf2).
  { rewrite length_fmap, <- Hlen.
    unfold zip_star. destruct cols as [| c cols]; [constructor |].
    apply zip_loop_widths. }
  exists rs. split; [done |]. apply Forall_forall. intros r Hr.
  apply list_elem_of_lookup_1 in Hr. destruct Hr as [i Hi].
  by destruct (Forall2_lookup_r _ _ _ _ _ Hf2 Hi) as (row & _ & Hdom & _).
Qed.

(** A batch is yielded row by row, and the loop goes on. *)
Lemma yield_batch_transposed batch :
  rectangular batch ->
  ∃ rows, yield_batch batch = (rows, Finished) ∧ transposed batch rows.
Proof.
  intros Hrect. unfold yield_batch.
  destruct (columns_of_to_pydict batch) as (cols & Hcols & Hlen). rewrite Hcols.
  pose proof (columns_of_lookup _ _ _ Hcols) as Hlook.
  assert (Hall : Forall (λ c, length c = num_rows batch) cols).
  { apply Forall_forall. intros col Hcol.
    apply list_elem_of_lookup_1 in Hcol. destruct Hcol as [j Hj].
    destruct (Forall2_lookup_r _ _ _ _ _ Hlook Hj) as (name & _ & Hd).
    apply fold_insert_elem in Hd. destruct Hd as [Hin | Hd]; [| by rewrite lookup_empty in Hd].
    unfold rectangular in Hrect. rewrite Forall_forall in Hrect.
    exact (Hrect _ Hin). }
  assert (Hzip : zip_star cols = zip_loop (num_rows batch) cols).
  { unfold zip_star. destruct cols as [| c cols].
    - destruct batch; [done | discriminate].
    - apply Forall_cons_1 in Hall. destruct Hall as [-> _]. done. }
  rewrite Hzip.
  destruct (zip_loop_rows (num_rows batch) cols Hall) as [Hzlen Hzrows].
  destruct (yield_records_all batch.*1 (zip_loop (num_rows batch) cols))
    as (rs & Hrs & Hf2).
  { rewrite length_fmap, <- Hlen. apply zip_loop_widths. }
  exists rs. split; [done |]. split.
  - apply Forall2_length in Hf2. lia.
  - intros i r Hi.
    destruct (Forall2_lookup_r _ _ _ _ _ Hf2 Hi) as (row & Hrow & Hdom & Hval).
    split; [done |]. intros j name col Hj Hlast.
    pose proof (Hzrows _ _ Hrow) as Hcolrow.
    assert (batch.*1 !! j = Some name) as Hname by (by rewrite list_lookup_fmap, Hj).
    destruct (Forall2_lookup_l _ _ _ _ _ Hlook Hname) as (col' & Hcol' & Hd).
    assert (col' = col) as ->.
    { unfold to_pydict in Hd. rewrite (fold_insert_last batch ∅ j name col Hj Hlast) in Hd.
      by injection Hd. }
    destruct (Forall2_lookup_l _ _ _ _ _ Hcolrow Hcol') as (v & Hv & Hcv).
    rewrite Hcv. eapply Hval; [exact Hname | exact Hv |].
    intros j' Hj' Hname'. rewrite list_lookup_fmap in Hname'.
    destruct (batch !! j') as [[n' c'] |] eqn:Hb; [| discriminate].
    cbn in Hname'. injection Hname' as ->. by apply (Hlast j' c').
Qed.

(** Batches are yielded row by row, in stream order, up to the point where
    the reader ends, however it ends. *)
Lemma read_batches_any_reader (reader : Reader Value) :
  Forall rectangular (reader_batches reader) ->
  ∃ rowss, read_batches reader = (concat rowss, reader_end reader)
           ∧ Forall2 transposed (reader_batches reader) rowss.
Proof.
  induction reader as [| batch rest IH | e]; intros Hall.
  - exists []. split; [done | constructor].
  - cbn [reader_batches] in Hall. apply Forall_cons_1 in Hall.
    destruct Hall as [Hwf Hall]. destruct (IH Hall) as (rowss & Hrun & Hf2).
    destruct (yield_batch_transposed batch Hwf) as (rows & Hrows & Htr).
    exists (rows :: rowss). cbn [read_batches reader_end reader_batches].
    rewrite Hrows, Hrun. split; [done | by constructor].
  - exists []. split; [done | constructor].
Qed.

Lemma reader_of_batches (batches : list (Batch Value)) :
  reader_batches (reader_of batches) = batches ∧ reader_end (reader_of batches) = Finished.
Proof.
  induction batches as [| batch batches [IHb IHe]]; [done |].
  cbn [reader_of foldr reader_batches reader_end]. fold (reader_of batches).
  by rewrite IHb, IHe.
Qed.

(** X10: the transposition adds no failure of its own, whatever the engine
    hands out (repeated column names, columns of different lengths, no
    column at all): the loop ends as the reader ends, with [StopIteration]
    or with the reader's exception, never with a [KeyError] or an
    [IndexError]; and the keys of every record yielded are the column
    names of one of the reader's batches. *)
Theorem read_batches_ends_as_reader (reader : Reader Value) :
  (read_batches reader).2 = reader_end reader
  ∧ Forall (λ r : record Value,
              ∃ batch, batch ∈ reader_batches reader ∧ dom r = list_to_set batch.*1)
           (read_batches reader).1.
Proof.
  induction reader as [| batch rest [IHend IHkeys] | e].
  - split; [done | constructor].
  - destruct (yield_batch_total batch) as (rows & Hrows & Hdom).
    cbn [read_batches reader_end reader_batches]. rewrite Hrows.
    destruct (read_batches rest) as [ys e]. cbn [fst snd] in *.
    split; [done |]. apply Forall_app. split.
    + eapply Forall_impl; [exact Hdom |]. intros r Hr. exists batch.
      split; [apply elem_of_cons; by left | done].
    + eapply Forall_impl; [exact IHkeys |]. intros r (b & Hb & Hr). exists b.
      split; [apply elem_of_cons; by right | done].
  - split; [done | constructor].
Qed.
End StreamerFacts.

Section StreamerTheorems.
Context {Value : Type} {libs : Libraries Value} {wb : WriteBuffer}.

(** Statements after a [return] add nothing to a generator. *)
Lemma run_generator_return (g : list (record Value) * gen_end) (rest : stmt) :
  run_generator (seq_stmt (yield_from g) (seq_stmt ([], Return) rest))
  = (Yield <$> g.1, g.2).
Proof.
  destruct g as [ys [| e]]; cbn [yield_from fst snd]; [| reflexivity].
  cbn [seq_stmt]. destruct rest as [ev' f'].
  cbn [seq_stmt run_generator]. by rewrite !app_nil_r.
Qed.

(** C1, as the code has it: when the engine reads the stream as a sequence
    of batches, [stream_records] (through [__read_stream_by_chunks]) yields
    exactly one record per batch row: the rows of each batch in batch row
    order, the batches in stream order. The keys of every record are the
    column names of its batch exactly as the engine hands them out: the
    streamer trims nothing. The record of row [i] maps each name to the
    [i]-th value of the last column of that name, so to the [i]-th value of
    column [j] for every [j] when no name is repeated. *)
Theorem stream_records_one_record_per_row
    (self : CsvParser) (file : bytes) (file_info : FileInfo)
    (batches : list (Batch Value)) :
  pa_open_csv file (_read_options self) (_parse_options self)
    (_convert_options self (_master_schema self)) = Returns (reader_of batches) ->
  Forall rectangular batches ->
  ∃ rowss : list (list (record Value)),
    read_stream_by_chunks self file = (concat rowss, Finished)
    ∧ stream_records self file file_info = (Yield <$> concat rowss, Finished)
    ∧ Forall2 transposed batches rowss.
Proof.
  intros Hopen Hrect.
  destruct (reader_of_batches batches) as [Hb He].
  destruct (read_batches_any_reader (reader_of batches)) as (rowss & Hrun & Hf2).
  { by rewrite Hb. }
  rewrite Hb in Hf2. rewrite He in Hrun.
  assert (read_stream_by_chunks self file = (concat rowss, Finished)) as Hread.
  { unfold read_stream_by_chunks. by rewrite Hopen. }
  exists rowss. split; [done |]. split; [| done].
  unfold stream_records. by rewrite run_generator_return, Hread.
Qed.

(** C5: for every file and every file descriptor, [stream_records] is
    the direct read [__read_stream_by_chunks(file)]: the same records in
    the same order, ending the same way, with no chunk written and no
    temporary file cleaned up. The statements after the first [return]
    (size test, chunk loop, cleanup) never run. *)
Theorem stream_records_is_direct_read
    (self : CsvParser) (file : bytes) (file_info : FileInfo) :
  stream_records self file file_info
  = (Yield <$> (read_stream_by_chunks self file).1, (read_stream_by_chunks self file).2).
Proof.
  unfold stream_records, stream_records_rest.
  destruct (read_stream_by_chunks self file) as [ys [| e]] eqn:Hdirect.
  - (* the direct read finished: its [return] cuts what follows *)
    apply (run_generator_return (ys, Finished)).
  - (* the direct read raised: nothing after it runs *)
    reflexivity.
Qed.

(** X11: when the engine fails while the stream is being read, nothing
    already yielded is taken back: [stream_records] yields the records of
    every batch handed out before the failure, row by row and in order, and
    then ends with the engine's exception (or normally, if the engine
    stopped). The batches are record batches, their columns of one length;
    their column names may be anything. *)
Theorem stream_records_until_failure
    (self : CsvParser) (file : bytes) (file_info : FileInfo) (reader : Reader Value) :
  pa_open_csv file (_read_options self) (_parse_options self)
    (_convert_options self (_master_schema self)) = Returns reader ->
  Forall rectangular (reader_batches reader) ->
  ∃ rowss : list (list (record Value)),
    stream_records self file file_info = (Yield <$> concat rowss, reader_end reader)
    ∧ Forall2 transposed (reader_batches reader) rowss.
Proof.
  intros Hopen Hrect.
  destruct (read_batches_any_reader reader Hrect) as (rowss & Hrun & Hf2).
  exists rowss. split; [| done].
  unfold stream_records. rewrite run_generator_return.
  unfold read_stream_by_chunks. by rewrite Hopen, Hrun.
Qed.
End StreamerTheorems.

(** The header of [example_file] and its one data row, as the engine that
    keeps the names hands them out. *)
Example verbatim_batch_example_file :
  verbatim_batch ","%char (String.string_of_list_byte example_file)
  = [("id", ["1"]); (" name ", ["Alice"]); ("score", ["9"])].
Proof. vm_compute. reflexivity. Qed.

(** C1, counterexample: pyarrow keeps the header's fields as they stand,
    and so do the records. On the stream [id, name ,score] with one data
    row, read by an engine that does as pyarrow does, the record has the
    key [ name ] with its two spaces, where the header's trimmed names, the
    keys of the schema derived without inference, have [name]. *)
Lemma stream_records_keys_not_trimmed :
  ¬ keyed_by_trimmed_header (libs := verbatim_libraries) (wb := DEFAULT_BUFFER_SIZE)
      (example_parser false) example_file example_file_info.
Proof.
  intros Hkeys.
  specialize (Hkeys (string_schema (libs := verbatim_libraries) ["id"; " name "; "score"])
                (drop 16 example_file)).
  specialize (Hkeys ltac:(vm_compute; reflexivity)
                ({[ "id" := "1"; " name " := "Alice"; "score" := "9" ]} : record string)).
  specialize (Hkeys ltac:(vm_compute; apply list_elem_of_here)).
  assert (" name " ∈ dom ({[ "id" := "1"; " name " := "Alice"; "score" := "9" ]}
                            : record string)) as Hin.
  { apply elem_of_dom. eexists. vm_compute. reflexivity. }
  rewrite Hkeys in Hin. apply elem_of_dom in Hin. destruct Hin as [t Ht].
  vm_compute in Ht. discriminate.
Qed.

Lemma stream_records_one_record_per_row_witness :
  ∃ rowss : list (list (record string)),
    read_stream_by_chunks (libs := verbatim_libraries) (example_parser false) example_file
    = (concat rowss, Finished)
    ∧ stream_records (libs := verbatim_libraries) (wb := DEFAULT_BUFFER_SIZE)
        (example_parser false) example_file example_file_info
      = (Yield <$> concat rowss, Finished)
    ∧ Forall2 transposed [[("id", ["1"]); (" name ", ["Alice"]); ("score", ["9"])]] rowss.
Proof.
  apply (stream_records_one_record_per_row (libs := verbatim_libraries)
           (wb := DEFAULT_BUFFER_SIZE)
           (example_parser false) example_file example_file_info
           [[("id", ["1"]); (" name ", ["Alice"]); ("score", ["9"])]]).
  - vm_compute. reflexivity.
  - repeat constructor.
Defined.

Lemma stream_records_until_failure_witness :
  ∃ rowss : list (list (record Z)),
    stream_records (libs := interrupted_libraries) (wb := DEFAULT_BUFFER_SIZE)
      (example_parser true) example_file example_file_info
    = (Yield <$> concat rowss, Raised arrow_invalid)
    ∧ Forall2 transposed [example_batch] rowss.
Proof.
  apply (stream_records_until_failure (libs := interrupted_libraries)
           (wb := DEFAULT_BUFFER_SIZE)
           (example_parser true) example_file example_file_info
           (NextBatch example_batch (ReadError arrow_invalid))).
  - reflexivity.
  - repeat constructor.
Defined.

(** ** Schema derivation *)


Section SchemaTheorems.
Context {Value : Type} {libs : Libraries Value}.





Lemma attempt_elapsed {A} (worker : run (outcome A)) (timeout : Z) :
  (attempt worker timeout).2 <= timeout.
Proof.
  unfold attempt. destruct worker as [t [a | e] |]; cbn; try lia.
  destruct (t <=? timeout) eqn:Ht; cbn; [apply Z.leb_le in Ht |]; lia.
Qed.

(** The spec's envelope: an answer within the first timeout, or within
    the second, or the timeout error; never more than both timeouts. *)
Lemma run_in_external_process_envelope
    (fn : run (outcome (option schema_dict * option exc))) (timeout max_timeout : Z) :
  0 <= timeout <= max_timeout ->
  (run_in_external_process fn timeout max_timeout).2 <= timeout + max_timeout
  ∧ (run_in_external_process fn timeout max_timeout).1
    = match fn with
      | Completes s (Returns answer) =>
        if s <=? max_timeout then deliver answer else Raises timeout_error
      | _ => Raises timeout_error
      end.
Proof.
  intros Hle. unfold run_in_external_process, attempt.
  destruct fn as [s [answer | e] |]; cbn [fst snd]; [| split; [lia | done] ..].
  destruct (s <=? timeout) eqn:H1.
  - apply Z.leb_le in H1. cbn [fst snd].
    replace (s <=? max_timeout) with true by (symmetry; apply Z.leb_le; lia).
    split; [lia | done].
  - apply Z.leb_gt in H1. destruct (s <=? max_timeout) eqn:H2; cbn [fst snd].
    + apply Z.leb_le in H2. split; [lia | done].
    + split; [lia | done].
Qed.

Lemma get_schema_dict_inference (self : CsvParser) (file : bytes) (bs : Z) :
  infer_datatypes (format self) = true ->
  _read_options self !! "block_size" = Some (OInt bs) ->
  _get_schema_dict self file
  = ((run_in_external_process
        (infer_schema_process (read (bs * 2) file).1 (_read_options self)
           (_parse_options self) (_convert_options self None)) 4 60).1,
     (run_in_external_process
        (infer_schema_process (read (bs * 2) file).1 (_read_options self)
           (_parse_options self) (_convert_options self None)) 4 60).2,
     (read (bs * 2) file).2).
Proof.
  intros Hinfer Hbs. unfold _get_schema_dict. rewrite Hinfer, Hbs. cbn [negb as_int].
  destruct (read (bs * 2) file) as [sample rest]. cbn [fst snd].
  by destruct (run_in_external_process _ 4 60).
Qed.

(** C6: with inference on, the call waits at most 4 + 60 seconds for the
    other process (one try under the first timeout, one more under the
    ceiling) and then has the answer of a run that took at most 60
    seconds, or fails with the timeout error; a run that hangs or takes
    longer gives the error, never a schema. *)
Theorem get_schema_dict_timeout_envelope (self : CsvParser) (file : bytes) (bs : Z) :
  infer_datatypes (format self) = true ->
  _read_options self !! "block_size" = Some (OInt bs) ->
  (_get_schema_dict self file).1.2 <= 4 + 60
  ∧ (_get_schema_dict self file).1.1
    = match infer_schema_process (read (bs * 2) file).1 (_read_options self)
              (_parse_options self) (_convert_options self None) with
      | Completes s (Returns answer) =>
        if s <=? 60 then deliver answer else Raises timeout_error
      | _ => Raises timeout_error
      end.
Proof.
  intros Hinfer Hbs. rewrite (get_schema_dict_inference self file bs Hinfer Hbs).
  cbn [fst snd]. apply run_in_external_process_envelope. lia.
Qed.

Lemma infer_schema_process_catches (file_sample : bytes)
    (read_opts parse_opts convert_opts : gmap string opt_value) (s : Z) (e : exc) :
  pa_open_csv_schema file_sample read_opts parse_opts convert_opts
  = Completes s (Raises e) ->
  exc_is_Exception e = true ->
  infer_schema_process file_sample read_opts parse_opts convert_opts
  = Completes s (Returns (None, Some e)).
Proof.
  intros Hrun He. unfold infer_schema_process. by rewrite Hrun, He.
Qed.

(** C8: an exception [e] (of class [Exception]) raised inside
    [infer_schema_process] is not raised by it: the function returns the
    pair [(None, e)] with [e] itself; and when that answer arrives within
    the timeouts, [_get_schema_dict] raises this same [e] in the caller. *)
Theorem infer_schema_process_exception_propagated
    (self : CsvParser) (file : bytes) (bs s : Z) (e : exc) :
  infer_datatypes (format self) = true ->
  _read_options self !! "block_size" = Some (OInt bs) ->
  pa_open_csv_schema (read (bs * 2) file).1 (_read_options self)
    (_parse_options self) (_convert_options self None) = Completes s (Raises e) ->
  exc_is_Exception e = true ->
  infer_schema_process (read (bs * 2) file).1 (_read_options self)
    (_parse_options self) (_convert_options self None)
  = Completes s (Returns (None, Some e))
  ∧ (s <= 60 -> (_get_schema_dict self file).1.1 = Raises e).
Proof.
  intros Hinfer Hbs Hrun He.
  pose proof (infer_schema_process_catches _ _ _ _ s e Hrun He) as Hpair.
  split; [done |]. intros Hs.
  rewrite (get_schema_dict_inference self file bs Hinfer Hbs). cbn [fst].
  destruct (run_in_external_process_envelope
              (infer_schema_process (read (bs * 2) file).1 (_read_options self)
                 (_parse_options self) (_convert_options self None)) 4 60)
    as [_ Hres]; [lia |].
  rewrite Hres, Hpair.
  replace (s <=? 60) with true by (symmetry; apply Z.leb_le; lia). done.
Qed.
End SchemaTheorems.


(** The schema of [example_file], whose header is [id, name ,score]. *)
Example get_schema_dict_ex :
  _get_schema_dict (libs := example_libraries 1) (example_parser false) example_file
  = (Returns (Some ({[ "id" := pa_string; "name" := pa_string; "score" := pa_string ]}
                      : schema_dict)),
     0, drop 16 example_file).
Proof. vm_compute. reflexivity. Qed.

Lemma get_schema_dict_timeout_envelope_witness :
  (_get_schema_dict (libs := example_libraries 30) (example_parser true) example_file).1.2
  <= 4 + 60
  ∧ (_get_schema_dict (libs := example_libraries 30) (example_parser true) example_file).1.1
    = match infer_schema_process (libs := example_libraries 30)
              (read (10000 * 2) example_file).1 (_read_options (example_parser true))
              (_parse_options (example_parser true))
              (_convert_options (libs := example_libraries 30) (example_parser true) None) with
      | Completes s (Returns answer) =>
        if s <=? 60 then deliver answer else Raises timeout_error
      | _ => Raises timeout_error
      end.
Proof.
  apply (get_schema_dict_timeout_envelope (libs := example_libraries 30)
           (example_parser true) example_file 10000).
  - reflexivity.
  - vm_compute. reflexivity.
Defined.

Lemma infer_schema_process_exception_propagated_witness :
  infer_schema_process (libs := failing_libraries 2 arrow_invalid)
    (read (10000 * 2) example_file).1 (_read_options (example_parser true))
    (_parse_options (example_parser true))
    (_convert_options (libs := failing_libraries 2 arrow_invalid) (example_parser true) None)
  = Completes 2 (Returns (None, Some arrow_invalid))
  ∧ (2 <= 60 ->
     (_get_schema_dict (libs := failing_libraries 2 arrow_invalid)
        (example_parser true) example_file).1.1 = Raises arrow_invalid).
Proof.
  apply (infer_schema_process_exception_propagated
           (libs := failing_libraries 2 arrow_invalid)
           (example_parser true) example_file 10000 2 arrow_invalid).
  - reflexivity.
  - vm_compute. reflexivity.
  - reflexivity.
  - reflexivity.
Defined.

Example stream_records_ex :
  stream_records (libs := example_libraries 1) (wb := DEFAULT_BUFFER_SIZE)
      (example_parser true) example_file
    example_file_info
  = ([Yield ({[ "id" := 1; "name" := 10; "score" := 9 ]} : record Z);
      Yield ({[ "id" := 2; "name" := 20; "score" := 10 ]} : record Z)], Finished).
Proof. vm_compute. reflexivity. Qed.

(** ** What the scanner hands back *)

(** Sizes of what a successful scan returns. *)
Lemma find_line_end_loop_bounds fuel left_part file l r file' :
  NL ∉ left_part ->
  find_line_end_loop fuel left_part file = Some (Returns (l, r), file') ->
  len l < MAX_CHUNK_SIZE ∧ len r <= 1024.
Proof.
  pose proof MAX_CHUNK_SIZE_eq as HM.
  revert left_part file. induction fuel as [| fuel IH]; intros left_part file Hleft Hrun;
    [discriminate |].
  rewrite find_line_end_loop_unfold in Hrun.
  destruct (take (Z.to_nat 1024) file) as [| c cs] eqn:Hchunk.
  { injection Hrun as <- <- _. rewrite len_nil. lia. }
  rewrite <- Hchunk in Hrun. cbv zeta in Hrun.
  destruct (MAX_CHUNK_SIZE <? _) eqn:Hmax; [discriminate |]. apply Z.ltb_ge in Hmax.
  destruct (decide (NL ∈ left_part ++ take (Z.to_nat 1024) file)) as [Hin | Hni].
  - destruct (bytes_find_in _ _ Hin) as (k & Hk & Hlt & Hpre & Hdrop).
    rewrite Hk in Hrun.
    replace (-1 <? Z.of_nat k) with true in Hrun by (symmetry; apply Z.ltb_lt; lia).
    injection Hrun as <- <- _. unfold slice_to, slice_from. rewrite Nat2Z.id.
    unfold Nat.lt in Hlt.
    assert (length left_part <= k)%nat as Hk'.
    { destruct (decide (length left_part <= k)%nat) as [| Hgt]; [done |]. exfalso.
      apply Hleft. rewrite <- (take_drop k left_part).
      apply elem_of_app. right.
      assert (drop k (left_part ++ take (Z.to_nat 1024) file)
              = drop k left_part ++ take (Z.to_nat 1024) file) as Hd
        by (apply drop_app_le; lia).
      rewrite Hd in Hdrop.
      destruct (drop k left_part) as [| x t] eqn:Hx.
      { apply (f_equal length) in Hx. rewrite length_drop in Hx. cbn in Hx. lia. }
      cbn in Hdrop. injection Hdrop as -> _. apply elem_of_cons. by left. }
    unfold len in *. rewrite length_take, length_drop.
    rewrite length_app in *. rewrite length_take in *. lia.
  - rewrite (bytes_find_notin _ _ Hni) in Hrun. change (-1 <? -1) with false in Hrun.
    cbv iota in Hrun. eapply IH; [| exact Hrun]. done.
Qed.

Lemma scan_post_suffix (file : bytes) l r file' :
  scan_post [] file (Returns (l, r), file') ->
  (length file' <= length file)%nat
  ∧ ((l = [] ∧ r = [] ∧ file' = [] ∧ NL ∉ file)
     ∨ (file = l ++ r ++ file' ∧ (NL ∉ l) ∧ (length file' < length file)%nat
        ∧ ∃ r', r = NL :: r')).
Proof.
  intros [(-> & -> & -> & Hni) | (Heq & Hl & r' & ->)].
  - split; [cbn; lia |]. left. done.
  - rewrite app_nil_l in Heq. subst file.
    rewrite !length_app. cbn [length]. split; [lia |]. right.
    split; [done |]. split; [done |]. split; [lia | by exists r'].
Qed.

Lemma last_suffix_nonempty (a b : bytes) (x : byte) :
  last (a ++ b) = Some x -> b ≠ [] -> last b = Some x.
Proof.
  intros Hlast Hne. rewrite last_app in Hlast.
  destruct (last b) eqn:Hb; [done |]. apply last_None in Hb. done.
Qed.

Lemma reassemble_bodies (headers : bytes) (chunks : list bytes) :
  chunks ≠ [] -> Forall (λ c, headers `prefix_of` c) chunks ->
  reassemble headers chunks = headers ++ concat (chunk_body headers <$> chunks).
Proof.
  intros Hne Hall. destruct chunks as [| c cs]; [done |].
  apply Forall_cons_1 in Hall. destruct Hall as [[b ->] _].
  unfold reassemble. cbn [fmap list_fmap concat]. unfold chunk_body at 2.
  by rewrite drop_app_length, app_assoc.
Qed.

Lemma last_NL_found (file : bytes) : last file = Some NL -> 0 <= bytes_find NL file.
Proof.
  intros Hlast. destruct (decide (NL ∈ file)) as [Hin | Hni].
  - destruct (bytes_find_in _ _ Hin) as (k & Hk & _). lia.
  - exfalso. apply Hni. destruct file as [| b bs] using rev_ind; [done |].
    rewrite last_snoc in Hlast. injection Hlast as ->.
    apply elem_of_app. right. apply elem_of_cons. by left.
Qed.

(** X1: what a scan hands back is bounded: the line is shorter than 50 MiB
    and the leftover is at most one block of 1 KiB; the leftover is empty
    only when the stream ran out, and then the line is empty too and the
    stream is at its end. *)
Theorem find_line_end_result_bounds (file l r file' : bytes) :
  find_line_end file = Some (Returns (l, r), file') ->
  len l < MAX_CHUNK_SIZE ∧ len r <= 1024 ∧ (r = [] -> l = [] ∧ file' = []).
Proof.
  intros Hscan.
  destruct (find_line_end_loop_bounds _ _ _ _ _ _ (not_elem_of_nil NL) Hscan)
    as [Hl Hr].
  split; [done |]. split; [done |]. intros ->.
  destruct (find_line_end_total file) as (res & Hres & Hpost).
  rewrite Hscan in Hres. injection Hres as <-.
  destruct Hpost as [(-> & _ & -> & _) | (_ & _ & r' & Hr')]; [done | discriminate].
Qed.

Lemma find_line_end_result_bounds_witness :
  len [x61; x2c; x62] < MAX_CHUNK_SIZE ∧ len [x0a; x31; x2c; x32; x0a] <= 1024
  ∧ ([x0a; x31; x2c; x32; x0a] = [] -> [x61; x2c; x62] = [] ∧ [] = ([] : bytes)).
Proof.
  apply (find_line_end_result_bounds [x61; x2c; x62; x0a; x31; x2c; x32; x0a]).
  vm_compute. reflexivity.
Defined.

Lemma unterminated_run_of_exactly_50MiB :
  unterminated_run run_of_exactly_50MiB = MAX_CHUNK_SIZE
  ∧ len run_of_exactly_50MiB = MAX_CHUNK_SIZE + 1.
Proof.
  pose proof MAX_CHUNK_SIZE_eq as HM. unfold run_of_exactly_50MiB. split.
  - unfold unterminated_run, bytes_find.
    rewrite find_from_replicate by discriminate.
    replace (0 + Z.of_nat (Z.to_nat MAX_CHUNK_SIZE)) with MAX_CHUNK_SIZE by lia.
    replace (-1 <? MAX_CHUNK_SIZE) with true by (symmetry; apply Z.ltb_lt; lia).
    reflexivity.
  - rewrite len_app, len_replicate. change (len [NL]) with 1. lia.
Qed.

(** ** The chunk splitter on every stream, with every write buffer *)

Section SplitterFacts.
Context {wb : WriteBuffer}.

(** The fill loop either is skipped (the file on disk has its 50 MiB
    already), or copies blocks until it stops on a block read or at the end
    of the source. What the file holds once closed is what it held before,
    then the bytes read. *)
Lemma fill_loop_spec fuel tf chunk file :
  (length file < fuel)%nat ->
  ∃ tf' w chunk' file',
    fill_loop fuel tf chunk file = Some (tf', chunk', file')
    ∧ tf_close tf' = tf_close tf ++ w
    ∧ file = w ++ file'
    ∧ ((MAX_CHUNK_SIZE <= st_size tf ∧ w = [] ∧ chunk' = chunk)
       ∨ (st_size tf < MAX_CHUNK_SIZE
          ∧ ((truthy chunk' = true ∧ w ≠ []) ∨ (chunk' = Some [] ∧ file' = [])))).
Proof.
  revert tf chunk file.
  induction fuel as [| fuel IH]; intros tf chunk file Hfuel; [lia |].
  rewrite fill_loop_unfold. destruct (st_size tf <? MAX_CHUNK_SIZE) eqn:Hsize.
  - apply Z.ltb_lt in Hsize.
    destruct (take (Z.to_nat (1024 * 1024)) file) as [| c cs] eqn:Hblk.
    + apply take_nil_inv in Hblk; [| lia]. subst file.
      exists tf, [], (Some []), []. rewrite app_nil_r, drop_nil.
      split; [done |]. split; [done |]. split; [done |]. right. auto.
    + rewrite <- Hblk.
      assert (take (Z.to_nat (1024 * 1024)) file ≠ []) as Hne by (by rewrite Hblk).
      destruct (IH (tf_write tf (take (Z.to_nat (1024 * 1024)) file))
                  (Some (take (Z.to_nat (1024 * 1024)) file))
                  (drop (Z.to_nat (1024 * 1024)) file))
        as (tf' & w & chunk' & file' & Hrun & Hclose & Hfile & Hcase).
      { rewrite length_drop. destruct (take (Z.to_nat (1024 * 1024)) file) eqn:E; [done |].
        apply (f_equal length) in E. rewrite length_take in E. cbn in E. lia. }
      exists tf', (take (Z.to_nat (1024 * 1024)) file ++ w), chunk', file'.
      split; [exact Hrun |].
      split; [by rewrite Hclose, tf_close_write, <- app_assoc |].
      split; [by rewrite <- app_assoc, <- Hfile, take_drop |].
      right. split; [done |].
      destruct Hcase as [(_ & -> & ->) | (_ & [[Ht Hw] | [-> ->]])].
      * left. rewrite app_nil_r. split; [| done]. rewrite Hblk. done.
      * left. split; [done |]. intros Heq. apply app_eq_nil in Heq. tauto.
      * right. done.
  - apply Z.ltb_ge in Hsize. exists tf, [], chunk, file. rewrite app_nil_r.
    split; [done |]. split; [done |]. split; [done |]. left. done.
Qed.

(** The fill loop leaves [chunk] true only with 50 MiB or more on disk. *)
Lemma fill_loop_truthy_size fuel tf chunk file tf' chunk' file' :
  fill_loop fuel tf chunk file = Some (tf', chunk', file') ->
  truthy chunk' = true -> MAX_CHUNK_SIZE <= len (tf_close tf').
Proof.
  revert tf chunk file.
  induction fuel as [| fuel IH]; intros tf chunk file Hrun Ht; [discriminate |].
  rewrite fill_loop_unfold in Hrun.
  destruct (st_size tf <? MAX_CHUNK_SIZE) eqn:Hsize.
  - destruct (take (Z.to_nat (1024 * 1024)) file) as [| c cs] eqn:Hblk.
    + apply (f_equal (λ r, match r with Some (_, c, _) => truthy c | None => false end))
        in Hrun.
      cbv beta iota in Hrun. rewrite Ht in Hrun. discriminate.
    + rewrite <- Hblk in Hrun. by eapply IH.
  - apply Z.ltb_ge in Hsize. injection Hrun as <- _ _.
    pose proof (st_size_le_close tf). lia.
Qed.

(** One pass of the outer loop, with the content of the file spelled out. *)
Lemma create_chunk_loop_step fuel chunk headers tail_part file :
  ∃ w chunk' file',
    file = w ++ file'
    ∧ ((MAX_CHUNK_SIZE <= st_size (tf_write (tf_write open_wb headers) tail_part)
        ∧ w = [] ∧ chunk' = chunk)
       ∨ (st_size (tf_write (tf_write open_wb headers) tail_part) < MAX_CHUNK_SIZE
          ∧ ((truthy chunk' = true ∧ w ≠ []) ∨ (chunk' = Some [] ∧ file' = []))))
    ∧ (truthy chunk' = true -> MAX_CHUNK_SIZE <= len ((headers ++ tail_part) ++ w))
    ∧ create_chunk_loop (S fuel) chunk headers tail_part file
      = if truthy chunk' then
          match find_line_end file' with
          | None => None
          | Some (Raises e, _) => Some ([], Raised e)
          | Some (Returns (right_part, tail_part'), file'') =>
            match create_chunk_loop fuel chunk' headers tail_part' file'' with
            | None => None
            | Some (chunks, e) =>
              Some ((((headers ++ tail_part) ++ w) ++ right_part) :: chunks, e)
            end
          end
        else Some ([(headers ++ tail_part) ++ w], Finished).
Proof.
  destruct (fill_loop_spec (S (length file))
              (tf_write (tf_write open_wb headers) tail_part) chunk file)
    as (tf' & w & chunk' & file' & Hfill & Hclose & Hfile & Hcase); [lia |].
  rewrite tf_close_initial in Hclose.
  exists w, chunk', file'. split; [done |]. split; [done |]. split.
  - intros Ht. rewrite <- Hclose. by eapply fill_loop_truthy_size.
  - rewrite create_chunk_loop_unfold, Hfill, Hclose. reflexivity.
Qed.

(** The outer loop ends whenever the header is shorter than 50 MiB. *)
Lemma create_chunk_loop_total fuel chunk headers tail_part file :
  len headers < MAX_CHUNK_SIZE ->
  (length file + 2 <= fuel)%nat
  ∨ (file = [] ∧ len (headers ++ tail_part) < MAX_CHUNK_SIZE ∧ (1 <= fuel)%nat) ->
  ∃ r, create_chunk_loop fuel chunk headers tail_part file = Some r.
Proof.
  intros Hh. revert chunk tail_part file.
  induction fuel as [| fuel IH]; intros chunk tail_part file Hfuel; [lia |].
  destruct (create_chunk_loop_step fuel chunk headers tail_part file)
    as (w & chunk' & file' & Hfile & Hcase & _ & ->).
  destruct (truthy chunk') eqn:Ht; [| by eexists].
  destruct (find_line_end_total file') as ([[[l r] | e] file''] & Hscan & Hpost);
    rewrite Hscan; [| by eexists].
  apply scan_post_suffix in Hpost. destruct Hpost as [Hlen Hpost].
  assert (length file' <= length file)%nat as Hlen'.
  { rewrite Hfile, length_app. lia. }
  destruct (IH chunk' r file'') as [[cs e] Hres]; [| rewrite Hres; by eexists].
  destruct Hfuel as [Hfuel | (-> & Hsmall & Hfuel)].
  - destruct Hpost as [(-> & -> & -> & _) | (_ & _ & Hlt & _)].
    + right. rewrite app_nil_r. split; [done |]. split; [done | lia].
    + left. lia.
  - exfalso. destruct Hcase as [(Hbig & _) | (_ & [[_ Hw] | [-> _]])].
    + pose proof (st_size_le_close (tf_write (tf_write open_wb headers) tail_part)) as Hle.
      rewrite tf_close_initial in Hle. lia.
    + symmetry in Hfile. apply app_eq_nil in Hfile. tauto.
    + discriminate.
Qed.

(** The splitter always ends, with its chunks or with the scanner's error:
    the fuel given by [create_chunk] is never used up. *)
Lemma create_chunk_total (file : bytes) : ∃ r, create_chunk file = Some r.
Proof.
  unfold create_chunk.
  destruct (find_line_end_total file) as ([[[l r] | e] file'] & Hscan & Hpost);
    rewrite Hscan; [| by eexists].
  apply create_chunk_loop_total.
  - unfold find_line_end in Hscan.
    eapply find_line_end_loop_bounds; [apply not_elem_of_nil | exact Hscan].
  - left. apply scan_post_suffix in Hpost. lia.
Qed.

(** Every chunk starts with the header bytes. *)
Lemma create_chunk_loop_prefix fuel chunk headers tail_part file chunks e :
  create_chunk_loop fuel chunk headers tail_part file = Some (chunks, e) ->
  Forall (λ c, headers `prefix_of` c) chunks.
Proof.
  revert chunk tail_part file chunks.
  induction fuel as [| fuel IH]; intros chunk tail_part file chunks Hrun; [discriminate |].
  destruct (create_chunk_loop_step fuel chunk headers tail_part file)
    as (w & chunk' & file' & _ & _ & _ & Hstep).
  rewrite Hstep in Hrun.
  assert (Hpre : ∀ x, headers `prefix_of` (((headers ++ tail_part) ++ w) ++ x)).
  { intros x. do 2 apply prefix_app_r. by apply prefix_app_r. }
  destruct (truthy chunk').
  - destruct (find_line_end file') as [[[[l r] | e'] file''] |]; [| | discriminate].
    + destruct (create_chunk_loop fuel chunk' headers r file'') as [[cs e''] |] eqn:Hrec;
        [| discriminate].
      injection Hrun as <- <-. apply Forall_cons_2; [apply Hpre | by eapply IH].
    + injection Hrun as <- _. constructor.
  - injection Hrun as <- _. apply Forall_cons_2; [| constructor].
    rewrite <- (app_nil_r (_ ++ w)). apply Hpre.
Qed.

(** The bodies of the chunks, one after the other, are what was left to
    split, when the source ends with a terminator (or is at its end) and
    the first pass is not skipped. *)
Lemma create_chunk_loop_bodies fuel chunk headers tail_part file chunks :
  file = [] ∨ last file = Some NL ->
  truthy chunk = true
  ∨ st_size (tf_write (tf_write open_wb headers) tail_part) < MAX_CHUNK_SIZE ->
  create_chunk_loop fuel chunk headers tail_part file = Some (chunks, Finished) ->
  concat (chunk_body headers <$> chunks) = tail_part ++ file.
Proof.
  revert chunk tail_part file chunks.
  induction fuel as [| fuel IH]; intros chunk tail_part file chunks Hend Hq Hrun;
    [discriminate |].
  destruct (create_chunk_loop_step fuel chunk headers tail_part file)
    as (w & chunk' & file' & Hfile & Hcase & _ & Hstep).
  rewrite Hstep in Hrun.
  assert (Hbody : ∀ x, chunk_body headers (((headers ++ tail_part) ++ w) ++ x)
                       = tail_part ++ w ++ x).
  { intros x. unfold chunk_body. by rewrite <- !app_assoc, drop_app_length. }
  destruct (truthy chunk') eqn:Ht.
  - destruct (find_line_end_total file') as ([[[l r] | e'] file''] & Hscan & Hpost);
      rewrite Hscan in Hrun; [| discriminate].
    destruct (create_chunk_loop fuel chunk' headers r file'') as [[cs e''] |] eqn:Hrec;
      [| discriminate].
    injection Hrun as <- ->. cbn [fmap list_fmap concat]. rewrite Hbody.
    apply scan_post_suffix in Hpost. destruct Hpost as [_ Hpost].
    assert (file' = [] ∨ last file' = Some NL) as Hend'.
    { destruct (decide (file' = [])) as [| Hne]; [by left | right].
      destruct Hend as [-> | Hlast].
      - symmetry in Hfile. apply app_eq_nil in Hfile. tauto.
      - rewrite Hfile in Hlast. by eapply last_suffix_nonempty. }
    destruct Hpost as [(-> & -> & -> & Hni) | (Hsplit & _ & _ & _)].
    + rewrite (IH _ _ _ _ (or_introl eq_refl) (or_introl Ht) Hrec).
      destruct Hend' as [-> | Hlast].
      * by rewrite Hfile, !app_nil_r.
      * exfalso. apply Hni. destruct file' as [| b bs] using rev_ind; [done |].
        rewrite last_snoc in Hlast. injection Hlast as ->.
        apply elem_of_app. right. apply elem_of_cons. by left.
    + assert (file'' = [] ∨ last file'' = Some NL) as Hend''.
      { destruct (decide (file'' = [])) as [| Hne]; [by left | right].
        destruct Hend' as [-> | Hlast].
        - symmetry in Hsplit. apply app_eq_nil in Hsplit.
          destruct Hsplit as [_ Hsplit]. apply app_eq_nil in Hsplit. tauto.
        - rewrite Hsplit, app_assoc in Hlast. by eapply last_suffix_nonempty. }
      rewrite (IH _ _ _ _ Hend'' (or_introl Ht) Hrec).
      rewrite Hfile, Hsplit. by rewrite <- !app_assoc.
  - injection Hrun as <-. cbn [fmap list_fmap concat].
    rewrite <- (app_nil_r (_ ++ w)), Hbody, !app_nil_r.
    destruct Hcase as [(Hbig & _ & ->) | (_ & [[Ht' _] | [_ ->]])].
    + destruct Hq as [Hq | Hq]; [congruence | lia].
    + congruence.
    + by rewrite Hfile, app_nil_r.
Qed.

(** How [create_chunk] starts: the header scan raises, or finds no
    terminator in a stream it has read to the end, or splits the stream at
    its first terminator. *)
Lemma create_chunk_cases (file : bytes) (res : list bytes * gen_end) :
  create_chunk file = Some res ->
  (res = ([], Raised line_too_long) ∧ scan_raises (find_line_end file))
  ∨ ∃ tail_part file',
      create_chunk_loop (length file + 2) None
        (slice_to (bytes_find NL file) file) tail_part file' = Some res
      ∧ len (slice_to (bytes_find NL file) file) < MAX_CHUNK_SIZE
      ∧ ((tail_part = [] ∧ file' = [] ∧ slice_to (bytes_find NL file) file = []
          ∧ NL ∉ file)
         ∨ (file = slice_to (bytes_find NL file) file ++ tail_part ++ file'
            ∧ len tail_part <= 1024 ∧ ∃ t, tail_part = NL :: t)).
Proof.
  intros Hrun. unfold create_chunk in Hrun.
  destruct (find_line_end_total file) as ([[[l r] | e] file'] & Hscan & Hpost);
    rewrite Hscan in Hrun.
  - right.
    destruct (find_line_end_loop_bounds _ _ _ _ _ _ (not_elem_of_nil NL) Hscan)
      as [Hl Hr].
    apply scan_post_suffix in Hpost.
    destruct Hpost as [_ [(-> & -> & -> & Hni) | (Hsplit & Hnl & _ & r' & ->)]].
    + assert (slice_to (bytes_find NL file) file = []) as Hh.
      { unfold slice_to. rewrite (bytes_find_notin _ _ Hni).
        change (Z.to_nat (-1)) with O. apply take_0. }
      exists [], []. rewrite Hh. split; [done |]. split; [done |]. by left.
    + assert (slice_to (bytes_find NL file) file = l) as Hh.
      { unfold slice_to. rewrite Hsplit at 1. cbn [app].
        rewrite bytes_find_app_notin by done. unfold len. rewrite Nat2Z.id, Hsplit.
        apply take_app_length. }
      exists (NL :: r'), file'. rewrite Hh. split; [done |]. split; [done |].
      right. split; [done |]. split; [done | by exists r'].
  - left. injection Hrun as <-. simpl in Hpost. subst e.
    split; [done | by exists file'].
Qed.

(** A loop that finishes has yielded at least one chunk; one that does
    not finish was ended by the scanner. *)
Lemma create_chunk_loop_end fuel chunk headers tail_part file chunks e :
  create_chunk_loop fuel chunk headers tail_part file = Some (chunks, e) ->
  (e = Finished ∧ chunks ≠ []) ∨ e = Raised line_too_long.
Proof.
  revert chunk tail_part file chunks.
  induction fuel as [| fuel IH]; intros chunk tail_part file chunks Hrun; [discriminate |].
  rewrite create_chunk_loop_unfold in Hrun.
  destruct (fill_loop _ _ _ _) as [[[tf c] f] |]; [| discriminate].
  destruct (truthy c).
  - destruct (find_line_end_total f) as ([[[l r] | e'] f'] & Hscan & Hpost);
      rewrite Hscan in Hrun.
    + destruct (create_chunk_loop fuel c headers r f') as [[cs e''] |] eqn:Hrec;
        [| discriminate].
      injection Hrun as <- <-.
      destruct (IH _ _ _ _ Hrec) as [[-> _] | ->]; [left | right]; done.
    + injection Hrun as <- <-. simpl in Hpost. subst e'. by right.
  - injection Hrun as <- <-. by left.
Qed.

(** X2: on every finite stream, and with every write buffer, the splitter
    comes to an end, its [while True] loops never run on: either it
    finishes, having yielded at least one chunk, or it is ended by the error
    of one of its scans, "same line is more than 50Mb". *)
Theorem create_chunk_ends (file : bytes) :
  ∃ chunks e,
    create_chunk file = Some (chunks, e)
    ∧ ((e = Finished ∧ chunks ≠ []) ∨ e = Raised line_too_long).
Proof.
  destruct (create_chunk_total file) as [[chunks e] Hrun].
  exists chunks, e. split; [done |].
  destruct (create_chunk_cases file _ Hrun) as [[Heq _] | (t & f & Hloop & _)].
  - injection Heq as _ ->. by right.
  - by eapply create_chunk_loop_end.
Qed.

Lemma create_chunk_loop_shape fuel chunk headers tail_part file chunks e :
  create_chunk_loop fuel chunk headers tail_part file = Some (chunks, e) ->
  (∃ t, tail_part = NL :: t) ∨ (tail_part = [] ∧ file = []) ->
  Forall (λ c, c = headers ∨ ∃ t, c = headers ++ NL :: t) chunks.
Proof.
  revert chunk tail_part file chunks.
  induction fuel as [| fuel IH]; intros chunk tail_part file chunks Hrun Hinv;
    [discriminate |].
  destruct (create_chunk_loop_step fuel chunk headers tail_part file)
    as (w & chunk' & file' & Hfile & _ & _ & Hstep).
  rewrite Hstep in Hrun.
  assert (Hline : ∀ x t0, tail_part = NL :: t0 ->
                    ∃ t, ((headers ++ tail_part) ++ w) ++ x = headers ++ NL :: t).
  { intros x t0 ->. exists (t0 ++ w ++ x). by rewrite <- !app_assoc. }
  destruct (truthy chunk').
  - destruct (find_line_end_total file') as ([[[l r] | e'] file''] & Hscan & Hpost);
      rewrite Hscan in Hrun.
    + destruct (create_chunk_loop fuel chunk' headers r file'') as [[cs e''] |] eqn:Hrec;
        [| discriminate].
      injection Hrun as <- <-. apply scan_post_suffix in Hpost.
      destruct Hpost as [_ Hpost]. apply Forall_cons_2.
      * destruct Hinv as [[t0 Ht0] | [-> ->]]; [right; by eapply Hline |].
        symmetry in Hfile. apply app_eq_nil in Hfile. destruct Hfile as [-> ->].
        destruct Hpost as [(-> & _) | (Hsplit & _ & _ & r' & ->)].
        -- left. by rewrite !app_nil_r.
        -- symmetry in Hsplit. apply app_eq_nil in Hsplit.
           destruct Hsplit as [_ Hsplit]. discriminate.
      * eapply IH; [exact Hrec |].
        destruct Hpost as [(_ & -> & -> & _) | (_ & _ & _ & r' & ->)];
          [by right | left; by exists r'].
    + injection Hrun as <- _. constructor.
  - injection Hrun as <- _. apply Forall_cons_2; [| constructor].
    destruct Hinv as [[t0 Ht0] | [-> ->]].
    + right. destruct (Hline [] t0 Ht0) as [t Ht]. exists t.
      by rewrite app_nil_r in Ht.
    + symmetry in Hfile. apply app_eq_nil in Hfile. destruct Hfile as [-> _].
      left. by rewrite !app_nil_r.
Qed.

(** X3: every chunk the splitter yields is the header bytes alone, or the
    header bytes, a terminator, and data: the header is never cut and never
    runs into the data that follows it. *)
Theorem create_chunk_header_terminated (file : bytes) (chunks : list bytes) (e : gen_end) :
  create_chunk file = Some (chunks, e) ->
  Forall (λ c, c = slice_to (bytes_find NL file) file
               ∨ ∃ t, c = slice_to (bytes_find NL file) file ++ NL :: t) chunks.
Proof.
  intros Hrun.
  destruct (create_chunk_cases file _ Hrun) as [[Heq _] | (t & f & Hloop & _ & Hinv)].
  - injection Heq as -> _. constructor.
  - eapply create_chunk_loop_shape; [exact Hloop |].
    destruct Hinv as [(-> & -> & _) | (_ & _ & t' & ->)]; [by right | left; by exists t'].
Qed.

Lemma create_chunk_loop_sizes fuel chunk headers tail_part file chunks e :
  create_chunk_loop fuel chunk headers tail_part file = Some (chunks, e) ->
  ∀ (i : nat) c, chunks !! i = Some c ->
    (S i < length chunks)%nat ∨ e ≠ Finished -> MAX_CHUNK_SIZE <= len c.
Proof.
  revert chunk tail_part file chunks.
  induction fuel as [| fuel IH]; intros chunk tail_part file chunks Hrun i c Hi Hnot;
    [discriminate |].
  destruct (create_chunk_loop_step fuel chunk headers tail_part file)
    as (w & chunk' & file' & _ & _ & Hsize & Hstep).
  rewrite Hstep in Hrun.
  destruct (truthy chunk') eqn:Ht.
  - specialize (Hsize eq_refl).
    destruct (find_line_end file') as [[[[l r] | e'] file''] |]; [| | discriminate].
    + destruct (create_chunk_loop fuel chunk' headers r file'') as [[cs e''] |] eqn:Hrec;
        [| discriminate].
      injection Hrun as <- <-. destruct i as [| i].
      * injection Hi as <-. rewrite len_app. pose proof (len_nonneg l). lia.
      * cbn in Hi. eapply (IH _ _ _ _ Hrec i c Hi).
        destruct Hnot as [Hlt | Hne]; [left | by right]. cbn [length] in Hlt. lia.
    + injection Hrun as <- _. by rewrite lookup_nil in Hi.
  - injection Hrun as <- <-. destruct i as [| i]; [| cbn in Hi; discriminate].
    destruct Hnot as [Hlt | Hne]; [cbn in Hlt; lia | done].
Qed.

(** X4: 50 MiB is a floor, not a ceiling: every chunk but the last of a
    finished run, and every chunk yielded before the scanner's error, has
    at least 50 MiB. *)
Theorem create_chunk_inner_chunks_at_least_50MiB
    (file : bytes) (chunks : list bytes) (e : gen_end) (i : nat) (c : bytes) :
  create_chunk file = Some (chunks, e) ->
  chunks !! i = Some c ->
  (S i < length chunks)%nat ∨ e ≠ Finished ->
  MAX_CHUNK_SIZE <= len c.
Proof.
  intros Hrun Hi Hnot.
  destruct (create_chunk_cases file _ Hrun) as [[Heq _] | (t & f & Hloop & _)].
  - injection Heq as -> _. by rewrite lookup_nil in Hi.
  - by eapply create_chunk_loop_sizes.
Qed.

Lemma create_chunk_loop_bodies_prefix fuel chunk headers tail_part file chunks e :
  create_chunk_loop fuel chunk headers tail_part file = Some (chunks, e) ->
  concat (chunk_body headers <$> chunks) `prefix_of` tail_part ++ file.
Proof.
  revert chunk tail_part file chunks.
  induction fuel as [| fuel IH]; intros chunk tail_part file chunks Hrun; [discriminate |].
  destruct (create_chunk_loop_step fuel chunk headers tail_part file)
    as (w & chunk' & file' & Hfile & _ & _ & Hstep).
  rewrite Hstep in Hrun.
  assert (Hbody : ∀ x, chunk_body headers (((headers ++ tail_part) ++ w) ++ x)
                       = tail_part ++ w ++ x).
  { intros x. unfold chunk_body. by rewrite <- !app_assoc, drop_app_length. }
  destruct (truthy chunk').
  - destruct (find_line_end_total file') as ([[[l r] | e'] file''] & Hscan & Hpost);
      rewrite Hscan in Hrun.
    + destruct (create_chunk_loop fuel chunk' headers r file'') as [[cs e''] |] eqn:Hrec;
        [| discriminate].
      injection Hrun as <- <-. cbn [fmap list_fmap concat]. rewrite Hbody.
      apply IH in Hrec. apply scan_post_suffix in Hpost.
      destruct Hpost as [_ [(-> & -> & -> & _) | (Hsplit & _)]].
      * apply prefix_nil_inv in Hrec. rewrite Hrec, Hfile, !app_nil_r.
        apply prefix_app, prefix_app_r. done.
      * rewrite Hfile, Hsplit, <- !app_assoc. by do 3 apply prefix_app.
    + injection Hrun as <- _. apply prefix_nil.
  - injection Hrun as <- _. cbn [fmap list_fmap concat].
    rewrite <- (app_nil_r (_ ++ w)), Hbody, !app_nil_r, Hfile.
    apply prefix_app, prefix_app_r. done.
Qed.

(** X5: whatever the stream, the chunks put back together (the repeated
    header left out) are a prefix of the source: the splitter never adds,
    repeats or reorders a byte; what it can lose is at the end. *)
Theorem create_chunk_reassembles_prefix (file : bytes) (chunks : list bytes) (e : gen_end) :
  create_chunk file = Some (chunks, e) ->
  reassemble (slice_to (bytes_find NL file) file) chunks `prefix_of` file.
Proof.
  intros Hrun.
  destruct (create_chunk_cases file _ Hrun) as [[Heq _] | (t & f & Hloop & _ & Hinv)].
  { injection Heq as -> _. apply prefix_nil. }
  destruct chunks as [| c cs]; [apply prefix_nil |].
  rewrite reassemble_bodies; [| done | by eapply create_chunk_loop_prefix].
  apply create_chunk_loop_bodies_prefix in Hloop.
  destruct Hinv as [(-> & -> & Hh & _) | (Hsplit & _)].
  - apply prefix_nil_inv in Hloop. rewrite Hloop, Hh. apply prefix_nil.
  - destruct Hloop as [k Hk]. exists k. by rewrite <- app_assoc, <- Hk.
Qed.

(** X6: with a write buffer of 1 KiB or more, a run of the splitter that
    finishes on a source ending with a terminator loses nothing: the
    chunks, the repeated header left out, are the source. The leftover of
    a scan, at most 1 KiB, is then still in the buffer when the fill loop
    tests the size of the file, so that no pass goes without reading. *)
Theorem create_chunk_reassembles_terminated (file : bytes) (chunks : list bytes) :
  1024 <= buffer_size ->
  last file = Some NL ->
  create_chunk file = Some (chunks, Finished) ->
  reassemble (slice_to (bytes_find NL file) file) chunks = file.
Proof.
  intros Hbuf Hlast Hrun.
  pose proof (last_NL_found file Hlast) as Hfind.
  destruct (create_chunk_cases file _ Hrun)
    as [[Heq _] | (t & f & Hloop & Hh & Hinv)]; [discriminate |].
  destruct Hinv as [(_ & _ & _ & Hni) | (Hsplit & Ht & t' & ->)].
  { apply bytes_find_notin in Hni. lia. }
  pose proof (create_chunk_loop_prefix _ _ _ _ _ _ _ Hloop) as Hpre.
  assert (chunks ≠ []) as Hne.
  { destruct (create_chunk_loop_end _ _ _ _ _ _ _ Hloop) as [[_ Hne] | Heq];
      [done | discriminate]. }
  rewrite (reassemble_bodies _ _ Hne Hpre).
  assert (f = [] ∨ last f = Some NL) as Hend.
  { destruct (decide (f = [])) as [| Hne']; [by left | right].
    rewrite Hsplit, app_assoc in Hlast. by eapply last_suffix_nonempty. }
  assert (truthy None = true
          ∨ st_size (tf_write (tf_write open_wb (slice_to (bytes_find NL file) file))
                       (NL :: t')) < MAX_CHUNK_SIZE) as Hq.
  { right. pose proof (st_size_initial (slice_to (bytes_find NL file) file) (NL :: t')).
    lia. }
  rewrite (create_chunk_loop_bodies _ _ _ _ _ _ Hend Hq Hloop).
  by rewrite <- Hsplit.
Qed.

(** X7: a stream shorter than 50 MiB that holds a terminator is not
    split: the splitter yields one chunk, the stream itself. *)
Theorem create_chunk_small_file (file : bytes) :
  0 <= bytes_find NL file -> len file < MAX_CHUNK_SIZE ->
  create_chunk file = Some ([file], Finished).
Proof.
  intros Hfind Hlen. destruct (create_chunk_total file) as [res Hrun].
  rewrite Hrun. f_equal.
  destruct (create_chunk_cases file _ Hrun)
    as [[_ Hraise] | (t & f & Hloop & _ & Hinv)].
  - apply find_line_end_raises_low in Hraise. lia.
  - destruct Hinv as [(_ & _ & _ & Hni) | (Hsplit & _)].
    { apply bytes_find_notin in Hni. lia. }
    replace (length file + 2)%nat with (S (length file + 1)) in Hloop by lia.
    rewrite create_chunk_loop_last in Hloop.
    + injection Hloop as <-. by rewrite <- app_assoc, <- Hsplit.
    + rewrite <- len_app, <- app_assoc, <- Hsplit. done.
Qed.

(** X8: a stream of at most 50 MiB with no terminator at all, the empty
    stream included, gives one chunk, and that chunk is empty: the header
    scan reads the stream to its end and hands back nothing of it. *)
Theorem create_chunk_no_terminator (file : bytes) :
  bytes_find NL file = -1 -> len file <= MAX_CHUNK_SIZE ->
  create_chunk file = Some ([[]], Finished).
Proof.
  intros Hfind Hlen. destruct (create_chunk_total file) as [res Hrun].
  rewrite Hrun. f_equal.
  destruct (create_chunk_cases file _ Hrun)
    as [[_ Hraise] | (t & f & Hloop & _ & Hinv)].
  - apply find_line_end_raises_low in Hraise. lia.
  - destruct Hinv as [(-> & -> & Hh & _) | (Hsplit & _ & t' & ->)].
    + rewrite Hh in Hloop.
      replace (length file + 2)%nat with (S (length file + 1)) in Hloop by lia.
      rewrite create_chunk_loop_last in Hloop.
      * by injection Hloop as <-.
      * rewrite app_nil_r, len_nil. pose proof MAX_CHUNK_SIZE_eq. lia.
    + exfalso. apply bytes_find_neg_iff in Hfind. apply Hfind.
      rewrite Hsplit. apply elem_of_app. right. apply elem_of_cons. by left.
Qed.

(** X9: when the first line fills 50 MiB and the stream goes on, the
    splitter yields no chunk at all: it stops with the scanner's error
    before the temporary file is opened. *)
Theorem create_chunk_header_too_long (file : bytes) :
  MAX_CHUNK_SIZE <= unterminated_run file -> MAX_CHUNK_SIZE < len file ->
  create_chunk file = Some ([], Raised line_too_long).
Proof.
  intros Hrun Hlen.
  assert (scan_raises (find_line_end file)) as [file' Hraise].
  { apply find_line_end_raises_low. split; [| done].
    apply notin_take_find. unfold unterminated_run in Hrun.
    destruct (-1 <? bytes_find NL file) eqn:Hfound.
    - right. lia.
    - left. apply Z.ltb_ge in Hfound.
      destruct (decide (NL ∈ file)) as [Hin | Hni]; [| by apply bytes_find_notin].
      destruct (bytes_find_in _ _ Hin) as (k & Hk & _). lia. }
  unfold create_chunk. by rewrite Hraise.
Qed.
(** Blocks that fit in the room left in the buffer stay there: the size
    the loop sees does not move, and the loop reads on to the end of the
    source. *)
Lemma fill_loop_buffered fuel tf chunk file :
  (length file < fuel)%nat ->
  st_size tf < MAX_CHUNK_SIZE ->
  len (pending tf) + len file <= buffer_size ->
  fill_loop fuel tf chunk file
  = Some (Writer (on_disk tf) (pending tf ++ file), Some [], []).
Proof.
  revert tf chunk file.
  induction fuel as [| fuel IH]; intros tf chunk file Hfuel Hsize Hroom; [lia |].
  rewrite fill_loop_unfold.
  replace (st_size tf <? MAX_CHUNK_SIZE) with true by (symmetry; apply Z.ltb_lt; lia).
  destruct (take (Z.to_nat (1024 * 1024)) file) as [| c cs] eqn:Hblk.
  - apply take_nil_inv in Hblk; [| lia]. subst file.
    rewrite app_nil_r, drop_nil. by destruct tf.
  - rewrite <- Hblk.
    assert (length (take (Z.to_nat (1024 * 1024)) file) ≠ 0%nat) as Hne
      by (rewrite Hblk; cbn [length]; lia).
    assert (len file = len (take (Z.to_nat (1024 * 1024)) file)
                       + len (drop (Z.to_nat (1024 * 1024)) file)) as Hsplit
      by (by rewrite <- len_app, take_drop).
    pose proof (len_nonneg (drop (Z.to_nat (1024 * 1024)) file)) as Hd.
    assert (tf_write tf (take (Z.to_nat (1024 * 1024)) file)
            = Writer (on_disk tf) (pending tf ++ take (Z.to_nat (1024 * 1024)) file)) as ->.
    { unfold tf_write.
      replace (len _ <=? buffer_size - len (pending tf)) with true; [done |].
      symmetry. apply Z.leb_le. lia. }
    rewrite IH.
    + cbn [on_disk pending]. by rewrite <- app_assoc, take_drop.
    + rewrite length_drop. rewrite length_take in Hne. lia.
    + done.
    + cbn [pending]. rewrite len_app. lia.
Qed.

(** X15: the leftover of the header scan and the blocks read after it wait
    in the write buffer, where [os.stat] does not see them. So a stream
    whose header line is longer than the buffer, within the 50 MiB of the
    scanner, and whose remainder fits in the buffer is yielded whole, as
    one chunk, also when it is longer than 50 MiB. *)
Theorem create_chunk_remainder_in_buffer (file : bytes) :
  buffer_size < bytes_find NL file < MAX_CHUNK_SIZE ->
  len file - bytes_find NL file <= buffer_size ->
  create_chunk file = Some ([file], Finished).
Proof.
  intros Hfind Hrest. destruct (create_chunk_total file) as [res Hrun].
  rewrite Hrun. f_equal.
  destruct (create_chunk_cases file _ Hrun)
    as [[_ Hraise] | (t & f & Hloop & Hh & Hinv)].
  { apply find_line_end_raises_low in Hraise. destruct Hraise as [Hni Hlong].
    apply notin_take_find in Hni. lia. }
  destruct Hinv as [(_ & _ & _ & Hni) | (Hsplit & _ & t' & ->)].
  { apply bytes_find_notin in Hni. pose proof (len_nonneg file). lia. }
  set (h := slice_to (bytes_find NL file) file) in *.
  assert (len h = bytes_find NL file) as Hlen.
  { assert (NL ∈ file) as Hin.
    { rewrite Hsplit. apply elem_of_app. right. apply elem_of_cons. by left. }
    destruct (bytes_find_in _ _ Hin) as (k & Hk & Hlt & _). unfold Nat.lt in Hlt.
    unfold h, slice_to. rewrite len_take by lia. unfold len. lia. }
  assert (len file = len h + len (NL :: t') + len f) as Hfile.
  { rewrite Hsplit at 1. rewrite !len_app. lia. }
  pose proof (len_nonneg f) as Hf. pose proof (len_nonneg t') as Ht'.
  assert (tf_write (tf_write open_wb h) (NL :: t') = Writer h (NL :: t')) as Htf.
  { rewrite (tf_write_through open_wb h) by lia.
    unfold tf_write, open_wb, tf_close. cbn [on_disk pending app].
    rewrite len_nil.
    replace (len (NL :: t') <=? buffer_size - 0) with true
      by (symmetry; apply Z.leb_le; lia).
    reflexivity. }
  replace (length file + 2)%nat with (S (length file + 1)) in Hloop by lia.
  rewrite create_chunk_loop_unfold, Htf in Hloop.
  rewrite fill_loop_buffered in Hloop.
  - cbn [truthy] in Hloop. injection Hloop as <-. unfold tf_close.
    cbn [on_disk pending]. do 2 f_equal. symmetry. exact Hsplit.
  - lia.
  - unfold st_size. cbn [on_disk]. lia.
  - cbn [pending]. lia.
Qed.
End SplitterFacts.

Lemma create_chunk_header_terminated_witness :
  Forall (λ c, c = slice_to (bytes_find NL [x61; x0a; x31; x0a; x32])
                     [x61; x0a; x31; x0a; x32]
               ∨ ∃ t, c = slice_to (bytes_find NL [x61; x0a; x31; x0a; x32])
                            [x61; x0a; x31; x0a; x32] ++ NL :: t)
         [[x61; x0a; x31; x0a; x32]].
Proof.
  apply (create_chunk_header_terminated (wb := DEFAULT_BUFFER_SIZE)
           [x61; x0a; x31; x0a; x32] [[x61; x0a; x31; x0a; x32]] Finished).
  vm_compute. reflexivity.
Defined.

Lemma create_chunk_inner_chunks_at_least_50MiB_witness :
  MAX_CHUNK_SIZE <= len ([x68; NL] ++ rep (MAX_CHUNK_SIZE + 1022)).
Proof.
  apply (create_chunk_inner_chunks_at_least_50MiB (wb := DEFAULT_BUFFER_SIZE)
           unterminated_tail_file
           [[x68; NL] ++ rep (MAX_CHUNK_SIZE + 1022); [x68]] Finished 0).
  - apply create_chunk_unterminated_tail_file. reflexivity.
  - reflexivity.
  - left. cbn [length]. lia.
Defined.

Lemma create_chunk_reassembles_prefix_witness :
  reassemble (slice_to (bytes_find NL unterminated_tail_file) unterminated_tail_file)
    [[x68; NL] ++ rep (MAX_CHUNK_SIZE + 1022); [x68]]
  `prefix_of` unterminated_tail_file.
Proof.
  apply (create_chunk_reassembles_prefix (wb := DEFAULT_BUFFER_SIZE)
           unterminated_tail_file
           [[x68; NL] ++ rep (MAX_CHUNK_SIZE + 1022); [x68]] Finished).
  apply create_chunk_unterminated_tail_file. reflexivity.
Defined.

Lemma create_chunk_reassembles_terminated_witness :
  reassemble (slice_to (bytes_find NL example_file) example_file) [example_file]
  = example_file.
Proof.
  apply (create_chunk_reassembles_terminated (wb := DEFAULT_BUFFER_SIZE)
           example_file [example_file]).
  - vm_compute. discriminate.
  - reflexivity.
  - vm_compute. reflexivity.
Defined.

Lemma create_chunk_small_file_witness :
  create_chunk (wb := DEFAULT_BUFFER_SIZE) example_file = Some ([example_file], Finished).
Proof.
  apply (create_chunk_small_file example_file).
  - vm_compute. discriminate.
  - vm_compute. reflexivity.
Defined.

Lemma create_chunk_no_terminator_witness :
  create_chunk (wb := DEFAULT_BUFFER_SIZE) [x61; x2c; x62] = Some ([[]], Finished).
Proof.
  apply (create_chunk_no_terminator [x61; x2c; x62]).
  - reflexivity.
  - vm_compute. discriminate.
Defined.

Lemma bytes_find_long_header_file :
  bytes_find NL long_header_file = MAX_CHUNK_SIZE - 1
  ∧ len long_header_file = MAX_CHUNK_SIZE + 5.
Proof.
  pose proof MAX_CHUNK_SIZE_eq as HM. unfold long_header_file. split.
  - rewrite bytes_find_app_notin by apply NL_notin_rep. apply len_rep. lia.
  - rewrite len_app, len_rep by lia.
    change (len (NL :: rep 5)) with 6. lia.
Qed.

Lemma create_chunk_remainder_in_buffer_witness :
  create_chunk (wb := DEFAULT_BUFFER_SIZE) long_header_file
  = Some ([long_header_file], Finished).
Proof.
  pose proof MAX_CHUNK_SIZE_eq as HM.
  apply (create_chunk_remainder_in_buffer (wb := DEFAULT_BUFFER_SIZE) long_header_file).
  - rewrite (proj1 bytes_find_long_header_file).
    change (buffer_size (WriteBuffer := DEFAULT_BUFFER_SIZE)) with 8192. lia.
  - rewrite (proj1 bytes_find_long_header_file), (proj2 bytes_find_long_header_file).
    change (buffer_size (WriteBuffer := DEFAULT_BUFFER_SIZE)) with 8192. lia.
Defined.

Lemma create_chunk_header_too_long_witness :
  create_chunk (wb := DEFAULT_BUFFER_SIZE) run_of_exactly_50MiB
  = Some ([], Raised line_too_long).
Proof.
  apply (create_chunk_header_too_long run_of_exactly_50MiB).
  - rewrite (proj1 unterminated_run_of_exactly_50MiB). lia.
  - rewrite (proj2 unterminated_run_of_exactly_50MiB). lia.
Defined.

(** ** Options and the inference sample *)

Lemma dict_merge_lookup {V} (a b : gmap string V) (k : string) :
  dict_merge a b !! k = match b !! k with Some v => Some v | None => a !! k end.
Proof.
  unfold dict_merge. rewrite lookup_union.
  destruct (b !! k), (a !! k); reflexivity.
Qed.

Lemma read_options_block_size (self : CsvParser) :
  _read_options self !! "block_size"
  = Some (match advanced_options (format self) !! "block_size" with
          | Some v => v
          | None => OInt (block_size (format self))
          end).
Proof.
  unfold _read_options. rewrite dict_merge_lookup.
  destruct (advanced_options (format self) !! "block_size"); [done |].
  rewrite lookup_insert_ne by done. by rewrite lookup_insert_eq.
Qed.

Section OptionTheorems.
Context {Value : Type} {libs : Libraries Value}.

Lemma get_schema_dict_sample (self : CsvParser) (file : bytes) (v : opt_value) (n : Z) :
  infer_datatypes (format self) = true ->
  _read_options self !! "block_size" = Some v -> as_int v = Some n -> 0 <= n ->
  sample_taken self file n.
Proof.
  intros Hinfer Hbs Hint Hn.
  exists (take (Z.to_nat (n * 2)) file), (drop (Z.to_nat (n * 2)) file).
  split; [by rewrite take_drop |]. split; [by rewrite len_take by lia |].
  unfold _get_schema_dict. rewrite Hinfer, Hbs, Hint. cbn [negb]. unfold read.
  replace (n * 2 <? 0) with false by (symmetry; apply Z.ltb_ge; lia).
  by destruct (run_in_external_process _ 4 60).
Qed.

(** X12: with inference on, [_get_schema_dict] runs the inference on a
    sample from the head of the stream and leaves the stream right after
    it: twice the block size in bytes, where a [block_size] entry of
    [advanced_options] replaces the block size of the format. An entry that
    is not an integer makes the call fail with a [TypeError], with nothing
    read and the other process not used. *)
Theorem get_schema_dict_sample_position (self : CsvParser) (file : bytes) :
  infer_datatypes (format self) = true ->
  match advanced_options (format self) !! "block_size" with
  | Some v =>
    match as_int v with
    | Some n => 0 <= n -> sample_taken self file n
    | None => ∃ e, _get_schema_dict self file = (Raises e, 0, file)
                   ∧ exc_type e = "TypeError"
    end
  | None => 0 <= block_size (format self) ->
            sample_taken self file (block_size (format self))
  end.
Proof.
  intros Hinfer. pose proof (read_options_block_size self) as Hbs.
  destruct (advanced_options (format self) !! "block_size") as [v |].
  - destruct (as_int v) as [n |] eqn:Hint.
    + intros Hn. by eapply get_schema_dict_sample.
    + exists type_error. split; [| done].
      unfold _get_schema_dict. by rewrite Hinfer, Hbs, Hint.
  - intros Hn. by eapply get_schema_dict_sample.
Qed.

(** X13: the two option bags have the last word. Every entry of
    [advanced_options] reaches the engine's read options as it is, over
    [block_size] and [encoding]; every entry of [additional_reader_options]
    reaches the convert options as it is, over [check_utf8] and over the
    [column_types] taken from the schema; the computed entries are used
    where the bags are silent, and no other key appears. *)
Theorem option_bags_take_precedence (self : CsvParser)
    (json_schema : option (list (string * string))) (k : string) :
  _read_options self !! k
  = match advanced_options (format self) !! k with
    | Some v => Some v
    | None =>
      if decide (k = "encoding") then Some (OStr (encoding (format self)))
      else if decide (k = "block_size") then Some (OInt (block_size (format self)))
      else None
    end
  ∧ _convert_options self json_schema !! k
    = match additional_reader_options (format self) !! k with
      | Some v => Some v
      | None =>
        if decide (k = "column_types") then
          Some (match json_schema with
                | Some js => OTypes (json_schema_to_pyarrow_schema js)
                | None => ONone
                end)
        else if decide (k = "check_utf8") then
          Some (OBool (bool_decide
                         (str_remove "-"%char (str_lower (encoding (format self)))
                          = "utf8")))
        else None
      end.
Proof.
  split.
  - unfold _read_options. rewrite dict_merge_lookup.
    destruct (advanced_options (format self) !! k); [done |].
    repeat case_decide; subst; simplify_map_eq; done.
  - unfold _convert_options. rewrite dict_merge_lookup.
    destruct (additional_reader_options (format self) !! k); [done |].
    repeat case_decide; subst; simplify_map_eq; done.
Qed.

(** X14: when the engine reads the sample's schema, [infer_schema_process]
    returns the pair of a dict and [None]; the dict has one key per field
    name, and under each name the type of the last field of that name (so
    every field's type, when the names differ). *)
Theorem infer_schema_process_schema (file_sample : bytes)
    (read_opts parse_opts convert_opts : gmap string opt_value) (t : Z)
    (fields : list (string * arrow_type)) :
  pa_open_csv_schema file_sample read_opts parse_opts convert_opts
  = Completes t (Returns fields) ->
  ∃ d : schema_dict,
    infer_schema_process file_sample read_opts parse_opts convert_opts
    = Completes t (Returns (Some d, None))
    ∧ dom d = list_to_set fields.*1
    ∧ ∀ (i : nat) name ty,
        fields !! i = Some (name, ty) ->
        (∀ (j : nat) ty', (i < j)%nat -> fields !! j ≠ Some (name, ty')) ->
        d !! name = Some ty.
Proof.
  intros Hrun. exists (schema_of_fields fields).
  unfold infer_schema_process. rewrite Hrun. split; [done |].
  unfold schema_of_fields. split.
  - by rewrite fold_insert_dom, dom_empty_L, (left_id_L ∅ (∪)).
  - intros i name ty Hi Hlast. by eapply fold_insert_last.
Qed.
End OptionTheorems.

Lemma get_schema_dict_sample_position_witness :
  sample_taken (libs := example_libraries 1) (example_parser true) example_file 10000.
Proof.
  pose proof (get_schema_dict_sample_position (libs := example_libraries 1)
                (example_parser true) example_file eq_refl) as Hsample.
  cbn [example_parser example_format format advanced_options block_size] in Hsample.
  rewrite lookup_empty in Hsample. apply Hsample. lia.
Defined.

(** A [block_size] given as text in [advanced_options]: the call fails,
    and nothing is read. *)
Example get_schema_dict_block_size_text :
  _get_schema_dict (libs := example_libraries 1)
    {| format := {| delimiter := ","; quote_char := "'"; escape_char := None;
                    double_quote := true; newlines_in_values := false;
                    block_size := 10000; encoding := "utf8"; infer_datatypes := true;
                    advanced_options := {[ "block_size" := OStr "10000" ]};
                    additional_reader_options := ∅ |};
       _master_schema := None |}
    example_file
  = (Raises type_error, 0, example_file).
Proof. vm_compute. reflexivity. Qed.

Lemma infer_schema_process_schema_witness :
  ∃ d : schema_dict,
    infer_schema_process (libs := example_libraries 1) example_file ∅ ∅ ∅
    = Completes 1 (Returns (Some d, None))
    ∧ dom d = list_to_set [("id", pa_type "int64"); ("name", pa_string);
                           ("score", pa_type "double")].*1
    ∧ ∀ (i : nat) name ty,
        [("id", pa_type "int64"); ("name", pa_string); ("score", pa_type "double")] !! i
        = Some (name, ty) ->
        (∀ (j : nat) ty', (i < j)%nat ->
           [("id", pa_type "int64"); ("name", pa_string); ("score", pa_type "double")] !! j
           ≠ Some (name, ty')) ->
        d !! name = Some ty.
Proof.
  apply (infer_schema_process_schema (libs := example_libraries 1) example_file ∅ ∅ ∅ 1
           [("id", pa_type "int64"); ("name", pa_string); ("score", pa_type "double")]).
  reflexivity.
Defined.
